(** * Object-state factory of OmniGibson: a shallow embedding

    The development follows [omnigibson/object_states/factory.py]: the
    module-level catalogs ([_ALL_STATES], [_ABILITY_TO_STATE_MAPPING], the
    category sets, the texture priority table), the accessor functions, the
    state-instance factory, and the dependency graph with its topological
    order.  The graph library the module calls (networkx) is embedded as far
    as the module uses it: [DiGraph] built from a dict of lists, and
    [topological_sort]. *)

From Stdlib Require Import ZArith String List Relations.
From stdpp Require Import gmap strings list sorting.

Local Open Scope string_scope.
Local Open Scope Z_scope.
Local Open Scope list_scope.

(** ** Python outcomes *)

(** The exceptions that the embedded code can raise, with their payload. *)
Inductive exn : Type :=
| AssertionError (msg : string)
| StopIteration
| RuntimeError (msg : string)
| NetworkXUnfeasible (msg : string).

(** [type(e).__name__] *)
Definition exn_name (e : exn) : string :=
  match e with
  | AssertionError _ => "AssertionError"
  | StopIteration => "StopIteration"
  | RuntimeError _ => "RuntimeError"
  | NetworkXUnfeasible _ => "NetworkXUnfeasible"
  end.

(** A call returns a value, raises, or (for the one loop that is embedded
    with a step budget) exhausts the budget. *)
Inductive outcome (A : Type) : Type :=
| Ok (a : A)
| Raise (e : exn)
| OutOfFuel.
Arguments Ok {A} a.
Arguments Raise {A} e.
Arguments OutOfFuel {A}.

#[global] Instance outcome_bind : MBind outcome := λ A B k m,
  match m with
  | Ok a => k a
  | Raise e => Raise e
  | OutOfFuel => OutOfFuel
  end.

(** A [for] loop whose body may raise: the state is threaded left to right
    and the first exception leaves the loop. *)
Fixpoint for_each {A S} (body : S → A → outcome S) (xs : list A) (s : S)
  : outcome S :=
  match xs with
  | [] => Ok s
  | x :: xs' => s' ← body s x; for_each body xs' s'
  end.

(** ** The class objects *)

(** The classes that [factory.py] names (the catalog members and the two
    base classes it imports), and every other class object, told apart by
    identity. *)
Inductive PyClass : Type :=
| AABB | Burnt | CleaningTool | ContactBodies | Cooked | Dusty | Heated
| Attached | Frozen | HeatSourceOrSink | HorizontalAdjacency | InFOVOfRobot
| InHandOfRobot | InReachOfRobot | InSameRoomAsRobot | Inside
| InsideRoomTypes | MaxTemperature | NextTo | ObjectsInFOVOfRobot | OnFloor
| OnTop | Open | Pose | Sliced | Slicer | Soaked | Stained | Temperature
| ToggledOn | Touching | Under | VerticalAdjacency | WaterSource | WaterSink
| Filled
| BaseObjectState | FluidSource
| OtherClass (id : nat).

(** The list literal of [_ALL_STATES], in source order. *)
Definition listed_states : list PyClass :=
  [ AABB; Burnt; CleaningTool; ContactBodies; Cooked; Dusty; Heated;
    Attached; Frozen; HeatSourceOrSink; HorizontalAdjacency; InFOVOfRobot;
    InHandOfRobot; InReachOfRobot; InSameRoomAsRobot; Inside;
    InsideRoomTypes; MaxTemperature; NextTo; ObjectsInFOVOfRobot; OnFloor;
    OnTop; Open; Pose; Sliced; Slicer; Soaked; Stained; Temperature;
    ToggledOn; Touching; Under; VerticalAdjacency; WaterSource; WaterSink;
    Filled ].

Definition class_code (c : PyClass) : nat :=
  match c with
  | AABB => 0 | Burnt => 1 | CleaningTool => 2 | ContactBodies => 3
  | Cooked => 4 | Dusty => 5 | Heated => 6 | Attached => 7 | Frozen => 8
  | HeatSourceOrSink => 9 | HorizontalAdjacency => 10 | InFOVOfRobot => 11
  | InHandOfRobot => 12 | InReachOfRobot => 13 | InSameRoomAsRobot => 14
  | Inside => 15 | InsideRoomTypes => 16 | MaxTemperature => 17
  | NextTo => 18 | ObjectsInFOVOfRobot => 19 | OnFloor => 20 | OnTop => 21
  | Open => 22 | Pose => 23 | Sliced => 24 | Slicer => 25 | Soaked => 26
  | Stained => 27 | Temperature => 28 | ToggledOn => 29 | Touching => 30
  | Under => 31 | VerticalAdjacency => 32 | WaterSource => 33
  | WaterSink => 34 | Filled => 35
  | BaseObjectState => 36 | FluidSource => 37
  | OtherClass id => (38 + id)%nat
  end.

Definition class_of_code (n : nat) : PyClass :=
  match (listed_states ++ [BaseObjectState; FluidSource]) !! n with
  | Some c => c
  | None => OtherClass (n - 38)
  end.

Lemma class_of_code_class_code c : class_of_code (class_code c) = c.
Proof.
  destruct c; try reflexivity.
  unfold class_of_code. cbn [class_code].
  replace ((listed_states ++ [BaseObjectState; FluidSource]) !! (38 + id)%nat)
    with (@None PyClass).
  - f_equal. lia.
  - symmetry. apply lookup_ge_None. cbn. lia.
Qed.

#[global] Instance PyClass_eq_dec : EqDecision PyClass.
Proof. solve_decision. Defined.

#[global] Instance PyClass_countable : Countable PyClass :=
  inj_countable' class_code class_of_code class_of_code_class_code.

(** ** Positions in a sequence *)

(** [index(u, l) < index(v, l)]: [u] occurs in [l] at a position before one
    of [v]. *)
Definition before {A} (l : list A) (u v : A) : Prop :=
  ∃ i j, l !! i = Some u ∧ l !! j = Some v ∧ (i < j)%nat.

(** ** networkx, as far as the module calls it *)

Section networkx.
Context {V : Type} `{Countable V}.

(** [nx.DiGraph]: the adjacency dict [_succ], node to successors, nodes and
    successors both in insertion order. *)
Definition DiGraph : Type := list (V * list V).

Definition nodes (G : DiGraph) : list V := G.*1.

(** [G.add_node(n)] *)
Definition add_node (G : DiGraph) (n : V) : DiGraph :=
  if decide (n ∈ nodes G) then G else G ++ [(n, [])].

(** The update that [add_edge] applies to the adjacency entries: [v] is
    appended to the successors of [u] unless it already is one. *)
Definition link (u v : V) (e : V * list V) : V * list V :=
  if decide (e.1 = u)
  then (e.1, if decide (v ∈ e.2) then e.2 else e.2 ++ [v])
  else e.

(** [G.add_edge(u, v)]: both ends become nodes, then [u] gains the
    successor [v]. *)
Definition add_edge (G : DiGraph) (u v : V) : DiGraph :=
  link u v <$> add_node (add_node G u) v.

Definition add_nodes_from (G : DiGraph) (ns : list V) : DiGraph :=
  foldl add_node G ns.

Definition add_edges_from (G : DiGraph) (es : list (V * V)) : DiGraph :=
  foldl (λ G e, add_edge G e.1 e.2) G es.

(** [nx.DiGraph(d)] for a dict of lists [d] (networkx: from_dict_of_lists):
    every key is a node, and every [(node, nbr)] with [nbr] in [d[node]] is
    an edge from [node] to [nbr]. *)
Definition from_dict_of_lists (d : list (V * list V)) : DiGraph :=
  let G := add_nodes_from [] (d.*1) in
  add_edges_from G
    (e ← d; (λ nbr, (e.1, nbr)) <$> e.2).

(** [v in G[u]] *)
Definition has_edge (G : DiGraph) (u v : V) : Prop :=
  ∃ nbrs, (u, nbrs) ∈ G ∧ v ∈ nbrs.

(** [G.neighbors(n)] *)
Definition neighbors (G : DiGraph) (n : V) : list V :=
  match list_find (λ e, e.1 = n) G with
  | Some (_, e) => e.2
  | None => []
  end.

(** [G.in_degree(v)], the number of nodes that have [v] as a successor. *)
Definition in_degree (G : DiGraph) (v : V) : Z :=
  Z.of_nat (length (filter (λ e, v ∈ e.2) G)).

Definition graph_changed : exn :=
  RuntimeError "Graph changed during iteration".

Definition unfeasible : exn :=
  NetworkXUnfeasible "Graph contains a cycle or graph changed during iteration".

(** The body of [for child in G.neighbors(node)]: decrement the child's
    entry; an entry that reaches zero leaves the map and the child joins
    the next generation. *)
Definition relax (st : gmap V Z * list V) (child : V)
  : outcome (gmap V Z * list V) :=
  let '(indegree_map, zero_indegree) := st in
  match indegree_map !! child with
  | None => Raise graph_changed
  | Some d =>
      let indegree_map := <[child := d - 1]> indegree_map in
      if decide (d - 1 = 0)
      then Ok (delete child indegree_map, zero_indegree ++ [child])
      else Ok (indegree_map, zero_indegree)
  end.

(** The body of [for node in this_generation]. *)
Definition visit (G : DiGraph) (st : gmap V Z * list V) (node : V)
  : outcome (gmap V Z * list V) :=
  if decide (node ∈ nodes G)
  then for_each relax (neighbors G node) st
  else Raise graph_changed.

(** The [while zero_indegree] loop of [topological_generations] (networkx
    2.6 and later: Kahn's algorithm, one generation of zero-in-degree nodes
    at a time), collecting what the generator yields; [fuel] bounds the
    number of generations. *)
Fixpoint generations_loop (fuel : nat) (G : DiGraph)
    (indegree_map : gmap V Z) (zero_indegree : list V)
  : outcome (list (list V)) :=
  match zero_indegree with
  | [] =>
      if decide (indegree_map = ∅) then Ok [] else Raise unfeasible
  | _ :: _ =>
      match fuel with
      | O => OutOfFuel
      | S fuel' =>
          st ← for_each (visit G) zero_indegree (indegree_map, []);
          rest ← generations_loop fuel' G st.1 st.2;
          Ok (zero_indegree :: rest)
      end
  end.

Definition topological_generations (G : DiGraph) : outcome (list (list V)) :=
  let degrees := (λ v, (v, in_degree G v)) <$> nodes G in
  let indegree_map : gmap V Z :=
    list_to_map (filter (λ vd, 0 < vd.2) degrees) in
  let zero_indegree := (filter (λ vd, vd.2 = 0) degrees).*1 in
  generations_loop (S (length G)) G indegree_map zero_indegree.

(** [list(nx.topological_sort(G))] *)
Definition topological_sort (G : DiGraph) : outcome (list V) :=
  generations ← topological_generations G;
  Ok (concat generations).

(** *** Bookkeeping for the proofs about the sort *)

(** The representation invariant of the adjacency dict. *)
Record wf_graph (G : DiGraph) : Prop := {
  wf_nodes : NoDup (nodes G);
  wf_nbrs : ∀ u nbrs, (u, nbrs) ∈ G → NoDup nbrs;
  wf_closed : ∀ u nbrs v, (u, nbrs) ∈ G → v ∈ nbrs → v ∈ nodes G;
}.

(** The adjacency of a graph on the nodes [l] without any edge. *)
Definition isolated (l : list V) : DiGraph := (λ s, (s, [])) <$> l.

(** Number of occurrences of [v] in [l]. *)
Definition occ (v : V) (l : list V) : nat := length (filter (λ x, x = v) l).

(** The number of predecessors of [v] among [L]; over all nodes this is the
    in-degree. *)
Definition preds_in (G : DiGraph) (L : list V) (v : V) : nat :=
  length (filter (λ u, v ∈ neighbors G u) L).

Definition deg (G : DiGraph) (v : V) : nat := preds_in G (nodes G) v.

(** The entry of [v] in [indegree_map] after the children [T] have been
    relaxed: what is left of its in-degree, and no entry once nothing is
    left. *)
Definition counts_ok (G : DiGraph) (T : list V) (m : gmap V Z) : Prop :=
  ∀ v, (occ v T ≤ deg G v)%nat ∧
       m !! v = if decide (occ v T < deg G v)%nat
                then Some (Z.of_nat (deg G v - occ v T))
                else None.

(** The state of the [while] loop once the generations [P] have been
    yielded and [zero] is the generation about to be visited. *)
Record loop_inv (G : DiGraph) (P : list V) (m : gmap V Z) (zero : list V)
  : Prop := {
  li_nodup : NoDup (P ++ zero);
  li_nodes : ∀ x, x ∈ P ++ zero → x ∈ nodes G;
  li_counts : counts_ok G (P ≫= neighbors G) m;
  li_done : ∀ v, v ∈ nodes G → v ∈ P ++ zero ↔ preds_in G P v = deg G v;
  li_topo : ∀ u v, v ∈ neighbors G u → v ∈ P → before P u v;
}.

(** A non-empty set of nodes, each with a predecessor in the set. *)
Definition stuck (G : DiGraph) (R : list V) : Prop :=
  R ≠ [] ∧ ∀ v, v ∈ R → ∃ u, u ∈ R ∧ has_edge G u v.

End networkx.

Arguments DiGraph V : clear implicits.

(** ** What the module imports *)

(** [factory.py] star-imports the state classes and [ROOM_STATES] from
    [omnigibson.object_states]; their definitions are not part of the
    module.  Everything the module asks of them is a field here. *)
Record ClassEnv : Type := {
  (** [cls.__name__] *)
  __name__ : PyClass → string;
  (** [str(cls)], as spliced into messages by [format] *)
  __str__ : PyClass → string;
  (** [cls.get_dependencies()] *)
  get_dependencies : PyClass → list PyClass;
  (** [cls.get_optional_dependencies()] *)
  get_optional_dependencies : PyClass → list PyClass;
  (** [issubclass(cls, base)] *)
  issubclass : PyClass → PyClass → bool;
  (** the list [ROOM_STATES] *)
  ROOM_STATES : list PyClass;
  (** The interpreter's hash order: a frozenset is iterated along its hash
      table, members with a smaller rank first.  The order is fixed for a
      given set and owes nothing to the members' names. *)
  __hash__ : PyClass → nat;
}.

(** [frozenset(l)] *)
Definition frozenset (l : list PyClass) : gset PyClass := list_to_set l.

Definition hash_le (E : ClassEnv) : relation PyClass :=
  λ a b, (__hash__ E a ≤ __hash__ E b)%nat.

#[global] Instance hash_le_dec E : RelDecision (hash_le E).
Proof. intros a b. unfold hash_le. apply _. Defined.

(** [for x in s] over a frozenset [s]: every member once, by hash rank. *)
Definition iterate (E : ClassEnv) (s : gset PyClass) : list PyClass :=
  merge_sort (hash_le E) (elements s).

(** ** factory.py *)

Definition _ALL_STATES (E : ClassEnv) : gset PyClass :=
  frozenset (listed_states ++ ROOM_STATES E).

(** The dict literal has pairwise distinct keys. *)
Definition _ABILITY_TO_STATE_MAPPING (E : ClassEnv)
  : gmap string (list PyClass) :=
  list_to_map
    [ ("attachable", [Attached]);
      ("burnable", [Burnt]);
      ("cleaningTool", [CleaningTool]);
      ("coldSource", [HeatSourceOrSink]);
      ("cookable", [Cooked]);
      ("dustyable", [Dusty]);
      ("freezable", [Frozen]);
      ("heatable", [Heated]);
      ("heatSource", [HeatSourceOrSink]);
      ("openable", [Open]);
      ("robot", ROOM_STATES E ++ [ObjectsInFOVOfRobot]);
      ("sliceable", [Sliced]);
      ("slicer", [Slicer]);
      ("soakable", [Soaked]);
      ("stainable", [Stained]);
      ("toggleable", [ToggledOn]);
      ("waterSource", [WaterSource]);
      ("waterSink", [WaterSink]);
      ("fillable", [Filled]) ].

Definition _DEFAULT_STATE_SET : gset PyClass :=
  frozenset
    [ InFOVOfRobot; InHandOfRobot; InReachOfRobot; InSameRoomAsRobot;
      Inside; NextTo; OnFloor; OnTop; Touching; Under ].

Definition _FIRE_STATE_SET : gset PyClass := frozenset [HeatSourceOrSink].

Definition _STEAM_STATE_SET : gset PyClass := frozenset [Heated].

Definition _TEXTURE_CHANGE_STATE_SET : gset PyClass :=
  frozenset [Burnt; Cooked; Frozen; Soaked; ToggledOn].

(** The dict literal has pairwise distinct keys. *)
Definition _TEXTURE_CHANGE_PRIORITY : gmap PyClass Z :=
  list_to_map
    [ (Frozen, 4); (Burnt, 3); (Cooked, 2); (Soaked, 1); (ToggledOn, 0) ].

Definition get_fire_states : gset PyClass := _FIRE_STATE_SET.

Definition get_steam_states : gset PyClass := _STEAM_STATE_SET.

Definition get_texture_change_states : gset PyClass :=
  _TEXTURE_CHANGE_STATE_SET.

Definition get_texture_change_priority : gmap PyClass Z :=
  _TEXTURE_CHANGE_PRIORITY.

Definition get_default_states : gset PyClass := _DEFAULT_STATE_SET.

Definition get_fluid_source_states (E : ClassEnv) : list PyClass :=
  filter (λ state, issubclass E state FluidSource = true)
    (iterate E (_ALL_STATES E)).

Definition get_all_states (E : ClassEnv) : gset PyClass := _ALL_STATES E.

Definition get_state_name (E : ClassEnv) (state : PyClass) : string :=
  __name__ E state.

(** [next] of the generator: its first item, [StopIteration] if it has
    none. *)
Definition get_state_from_name (E : ClassEnv) (name : string)
  : outcome PyClass :=
  match
    list_find (λ state, get_state_name E state = name)
      (iterate E (_ALL_STATES E))
  with
  | Some (_, state) => Ok state
  | None => Raise StopIteration
  end.

Definition get_states_for_ability (E : ClassEnv) (ability : string)
  : outcome (list PyClass) :=
  match _ABILITY_TO_STATE_MAPPING E !! ability with
  | None => Ok []
  | Some states => Ok states
  end.

(** [call state_class obj params] stands for the constructor call
    [state_class(obj, **params)]. *)
Definition get_object_state_instance {Obj Val Inst : Type} (E : ClassEnv)
    (call : PyClass → Obj → gmap string Val → outcome Inst)
    (state_class : PyClass) (obj : Obj) (params : option (gmap string Val))
  : outcome Inst :=
  if negb (issubclass E state_class BaseObjectState)
  then Raise (AssertionError
                ("unknown state class: " ++ __str__ E state_class)%string)
  else
    let params := default ∅ params in
    call state_class obj params.

Definition get_state_dependency_graph (E : ClassEnv) : DiGraph PyClass :=
  let dependencies :=
    (λ state,
       (state, get_dependencies E state ++ get_optional_dependencies E state))
      <$> iterate E (get_all_states E) in
  from_dict_of_lists dependencies.

Definition get_states_by_dependency_order (E : ClassEnv)
  : outcome (list PyClass) :=
  order ← topological_sort (get_state_dependency_graph E);
  Ok (reverse order).

(** [d] is a required or optional dependency of the catalog member [k]. *)
Definition depends_on (E : ClassEnv) (k d : PyClass) : Prop :=
  k ∈ get_all_states E
  ∧ d ∈ get_dependencies E k ++ get_optional_dependencies E k.

(** ** The presentation rule *)

Definition texture_rank (state : PyClass) : Z :=
  get_texture_change_priority !!! state.

Definition higher_rank (best : option PyClass) (state : PyClass)
  : option PyClass :=
  match best with
  | None => Some state
  | Some b =>
      if decide (texture_rank b < texture_rank state)
      then Some state else Some b
  end.

(** Modelled from the spec: the rule that picks the state to present among
    the active texture-affecting states of an entity; [factory.py] holds
    only the priority table.  "The winning state for visual presentation is
    the one with the numerically highest rank among those currently active
    on that entity." *)
Definition winning_state (active : gset PyClass) : option PyClass :=
  foldl higher_rank None (elements active).

(** ** The scheduler as the specification words it *)

Definition smaller_name (E : ClassEnv) (best : option PyClass) (k : PyClass)
  : option PyClass :=
  match best with
  | None => Some k
  | Some b => if String.ltb (__name__ E k) (__name__ E b) then Some k else Some b
  end.

Definition lexically_smallest (E : ClassEnv) (candidates : list PyClass)
  : option PyClass :=
  foldl (smaller_name E) None candidates.

(** Kahn's algorithm as the specification (4.3) words it, for comparison
    with the source: edges run from prerequisite to dependent, so the
    zero-in-degree candidates are the unresolved kinds none of whose
    dependencies is unresolved; each step removes the candidate with the
    lexically smallest name.  [None] stands for the failure on a cycle. *)
Fixpoint kahn_lexical (E : ClassEnv) (fuel : nat) (unresolved : list PyClass)
  : option (list PyClass) :=
  match unresolved, fuel with
  | [], _ => Some []
  | _, O => None
  | _, S fuel' =>
      let candidates :=
        filter
          (λ k, Forall (λ d, d ∉ unresolved)
                  (get_dependencies E k ++ get_optional_dependencies E k))
          unresolved in
      match lexically_smallest E candidates with
      | None => None
      | Some k =>
          (k ::.) <$> kahn_lexical E fuel' (filter (λ x, x ≠ k) unresolved)
      end
  end.

Definition compute_order_spec (E : ClassEnv) : option (list PyClass) :=
  let kinds := iterate E (get_all_states E) in
  kahn_lexical E (length kinds) kinds.

(** ** Sample environments *)

Definition sample_name (c : PyClass) : string :=
  match c with
  | AABB => "AABB" | Burnt => "Burnt" | CleaningTool => "CleaningTool"
  | ContactBodies => "ContactBodies" | Cooked => "Cooked" | Dusty => "Dusty"
  | Heated => "Heated" | Attached => "Attached" | Frozen => "Frozen"
  | HeatSourceOrSink => "HeatSourceOrSink"
  | HorizontalAdjacency => "HorizontalAdjacency"
  | InFOVOfRobot => "InFOVOfRobot" | InHandOfRobot => "InHandOfRobot"
  | InReachOfRobot => "InReachOfRobot"
  | InSameRoomAsRobot => "InSameRoomAsRobot" | Inside => "Inside"
  | InsideRoomTypes => "InsideRoomTypes" | MaxTemperature => "MaxTemperature"
  | NextTo => "NextTo" | ObjectsInFOVOfRobot => "ObjectsInFOVOfRobot"
  | OnFloor => "OnFloor" | OnTop => "OnTop" | Open => "Open" | Pose => "Pose"
  | Sliced => "Sliced" | Slicer => "Slicer" | Soaked => "Soaked"
  | Stained => "Stained" | Temperature => "Temperature"
  | ToggledOn => "ToggledOn" | Touching => "Touching" | Under => "Under"
  | VerticalAdjacency => "VerticalAdjacency" | WaterSource => "WaterSource"
  | WaterSink => "WaterSink" | Filled => "Filled"
  | BaseObjectState => "BaseObjectState" | FluidSource => "FluidSource"
  | OtherClass 0 => "IsInBathroom"
  | OtherClass 1 => "IsInKitchen"
  | OtherClass _ => "object"
  end.

(** The catalog members derive from [BaseObjectState]; [WaterSource] also
    from [FluidSource]. *)
Definition sample_issubclass (c base : PyClass) : bool :=
  match base with
  | BaseObjectState =>
      bool_decide (c ∈ BaseObjectState :: FluidSource :: OtherClass 0
                     :: OtherClass 1 :: listed_states)
  | FluidSource => bool_decide (c ∈ [FluidSource; WaterSource])
  | _ => bool_decide (c = base)
  end.

(** No class declares a dependency; two room classes; hash order is the
    order of the listing. *)
Definition independent_env : ClassEnv := {|
  __name__ := sample_name;
  __str__ := λ c, ("<class '" ++ sample_name c ++ "'>")%string;
  get_dependencies := λ _, [];
  get_optional_dependencies := λ _, [];
  issubclass := sample_issubclass;
  ROOM_STATES := [OtherClass 0; OtherClass 1];
  __hash__ := class_code;
|}.

(** [Cooked] requires [MaxTemperature]; [MaxTemperature] and [Heated]
    require [Temperature]; [HeatSourceOrSink] optionally depends on
    [ToggledOn] and [Open]. *)
Definition sample_env : ClassEnv := {|
  __name__ := sample_name;
  __str__ := λ c, ("<class '" ++ sample_name c ++ "'>")%string;
  get_dependencies := λ c,
    match c with
    | Cooked => [MaxTemperature]
    | MaxTemperature => [Temperature]
    | Heated => [Temperature]
    | _ => []
    end;
  get_optional_dependencies := λ c,
    match c with
    | HeatSourceOrSink => [ToggledOn; Open]
    | _ => []
    end;
  issubclass := sample_issubclass;
  ROOM_STATES := [OtherClass 0; OtherClass 1];
  __hash__ := class_code;
|}.

(** [independent_env] with every class called "state". *)
Definition anonymous_env : ClassEnv := {|
  __name__ := λ _, "state";
  __str__ := __str__ independent_env;
  get_dependencies := λ _, [];
  get_optional_dependencies := λ _, [];
  issubclass := sample_issubclass;
  ROOM_STATES := [OtherClass 0; OtherClass 1];
  __hash__ := class_code;
|}.

(** [sample_env] with room classes that come out of one class template and
    therefore share their [__name__]. *)
Definition room_template_env : ClassEnv := {|
  __name__ := λ c,
    match c with
    | OtherClass _ => "IsInRoom"
    | _ => sample_name c
    end;
  __str__ := __str__ sample_env;
  get_dependencies := get_dependencies sample_env;
  get_optional_dependencies := get_optional_dependencies sample_env;
  issubclass := sample_issubclass;
  ROOM_STATES := [OtherClass 0; OtherClass 1];
  __hash__ := class_code;
|}.

(** A state instance that records how it was constructed. *)
Record StateInstance : Type := {
  inst_class : PyClass;
  inst_obj : string;
  inst_kwargs : gmap string Z;
}.

(** A constructor call that accepts every keyword argument. *)
Definition sample_call (state_class : PyClass) (obj : string)
    (kwargs : gmap string Z) : outcome StateInstance :=
  Ok {| inst_class := state_class; inst_obj := obj; inst_kwargs := kwargs |}.

Definition sample_depth (c : PyClass) : nat :=
  match c with
  | Cooked => 2
  | MaxTemperature | Heated | HeatSourceOrSink => 1
  | _ => 0
  end.

(** [Heated] and [Temperature] each require the other. *)
Definition cyclic_env : ClassEnv := {|
  __name__ := sample_name;
  __str__ := λ c, ("<class '" ++ sample_name c ++ "'>")%string;
  get_dependencies := λ c,
    match c with
    | Heated => [Temperature]
    | Temperature => [Heated]
    | _ => []
    end;
  get_optional_dependencies := λ _, [];
  issubclass := sample_issubclass;
  ROOM_STATES := [];
  __hash__ := class_code;
|}.

(** A relation has no cycle when no element reaches itself along one or
    more steps. *)
Definition acyclic {A} (R : relation A) : Prop := ∀ x, ¬ tc R x x.

(** * Facts *)

(** ** The definitions at work *)

Example digraph_of_dict :
  from_dict_of_lists [(1, [2; 3]); (2, [3]); (4, [1; 1])]
  = [(1, [2; 3]); (2, [3]); (4, [1]); (3, [])].
Proof. reflexivity. Qed.

Example sort_of_dag :
  topological_sort (from_dict_of_lists [(1, [2; 3]); (2, [3]); (4, [1; 1])])
  = Ok [4; 1; 2; 3].
Proof. vm_compute. reflexivity. Qed.

Example sort_of_cycle :
  topological_sort (from_dict_of_lists [(1, [2]); (2, [3]); (3, [2])])
  = Raise unfeasible.
Proof. vm_compute. reflexivity. Qed.

Example sample_graph_edges :
  filter (λ e, e.2 ≠ []) (get_state_dependency_graph sample_env)
  = [ (Cooked, [MaxTemperature]); (Heated, [Temperature]);
      (HeatSourceOrSink, [ToggledOn; Open]);
      (MaxTemperature, [Temperature]) ].
Proof. vm_compute. reflexivity. Qed.

Example sample_order :
  get_states_by_dependency_order sample_env
  = Ok [ Temperature; Open; ToggledOn; MaxTemperature; OtherClass 1;
         OtherClass 0; Filled; WaterSink; WaterSource; VerticalAdjacency;
         Under; Touching; Stained; Soaked; Slicer; Sliced; Pose; OnTop;
         OnFloor; ObjectsInFOVOfRobot; NextTo; InsideRoomTypes; Inside;
         InSameRoomAsRobot; InReachOfRobot; InHandOfRobot; InFOVOfRobot;
         HorizontalAdjacency; HeatSourceOrSink; Frozen; Attached; Heated;
         Dusty; Cooked; ContactBodies; CleaningTool; Burnt; AABB ].
Proof. vm_compute. reflexivity. Qed.

Example sample_lookup :
  get_state_from_name sample_env "Cooked" = Ok Cooked
  ∧ get_fluid_source_states sample_env = [WaterSource]
  ∧ get_states_for_ability sample_env "cookable" = Ok [Cooked].
Proof. vm_compute. done. Qed.

Lemma before_app_l {A} (l k : list A) u v : before l u v → before (l ++ k) u v.
Proof.
  intros (i & j & Hi & Hj & Hlt). exists i, j.
  split_and!; [by apply lookup_app_l_Some..|done].
Qed.

Lemma before_app {A} (l k : list A) u v : u ∈ l → v ∈ k → before (l ++ k) u v.
Proof.
  intros [i Hi]%list_elem_of_lookup [j Hj]%list_elem_of_lookup.
  exists i, (length l + j)%nat. split_and!.
  - by apply lookup_app_l_Some.
  - rewrite lookup_app_r by lia. rewrite <-Hj. f_equal. lia.
  - apply lookup_lt_Some in Hi. lia.
Qed.

Lemma before_irrefl {A} (l : list A) u : NoDup l → ¬ before l u u.
Proof.
  intros Hnd (i & j & Hi & Hj & Hlt).
  pose proof (NoDup_lookup _ _ _ _ Hnd Hi Hj). lia.
Qed.

Lemma before_trans {A} (l : list A) u v w :
  NoDup l → before l u v → before l v w → before l u w.
Proof.
  intros Hnd (i & j & Hi & Hj & Hlt) (j' & k & Hj' & Hk & Hlt').
  pose proof (NoDup_lookup _ _ _ _ Hnd Hj Hj'). subst j'.
  exists i, k. split_and!; [done..|lia].
Qed.

Lemma before_reverse {A} (l : list A) u v :
  before l u v → before (reverse l) v u.
Proof.
  intros (i & j & Hi & Hj & Hlt).
  pose proof (lookup_lt_Some _ _ _ Hi). pose proof (lookup_lt_Some _ _ _ Hj).
  exists (length l - S j)%nat, (length l - S i)%nat. split_and!.
  - apply reverse_lookup_Some. split; [|lia]. rewrite <-Hj. f_equal. lia.
  - apply reverse_lookup_Some. split; [|lia]. rewrite <-Hi. f_equal. lia.
  - lia.
Qed.

(** In an acyclic relation no finite non-empty set has a predecessor for
    each of its members inside the set. *)
Lemma acyclic_minimal {A} (R : relation A) (l : list A) :
  acyclic R → l ≠ [] →
  ¬ ¬ ∃ x, x ∈ l ∧ ∀ y, y ∈ l → ¬ tc R y x.
Proof.
  intros Hacyc. induction l as [|a l IH]; intros Hne Hno; [done|].
  destruct l as [|b l].
  - apply Hno. exists a. split; [left|].
    intros y ->%list_elem_of_singleton. apply Hacyc.
  - apply IH; [done|]. intros (x & Hx & Hmin).
    apply Hno. exists x. split; [by right|].
    intros y [->|Hy]%elem_of_cons Hyx; [|by eapply Hmin].
    apply Hno. exists a. split; [left|].
    intros z [->|Hz]%elem_of_cons Hza; [by eapply Hacyc|].
    apply (Hmin z Hz). by etrans.
Qed.

Lemma acyclic_not_stuck {A} (R : relation A) (l : list A) :
  acyclic R → l ≠ [] → ¬ ∀ v, v ∈ l → ∃ u, u ∈ l ∧ R u v.
Proof.
  intros Hacyc Hne Hstuck. apply (acyclic_minimal R l Hacyc Hne).
  intros (x & Hx & Hmin). destruct (Hstuck x Hx) as (u & Hu & Hux).
  apply (Hmin u Hu). by apply tc_once.
Qed.

(** A sequence without repetition that puts the source of every step before
    its target leaves room for no cycle. *)
Lemma before_acyclic {A} (R : relation A) (l : list A) :
  NoDup l → (∀ u v, R u v → before l u v) → acyclic R.
Proof.
  intros Hnd Hord x Hxx.
  assert (∀ u v, tc R u v → before l u v) as Htc.
  { induction 1 as [u v Huv|u v w Huv _ IH]; [auto|].
    eapply before_trans; eauto. }
  by eapply before_irrefl, Htc.
Qed.

(** ** Loops *)

Lemma for_each_app {A S} (body : S → A → outcome S) xs ys s :
  for_each body (xs ++ ys) s = (s' ← for_each body xs s; for_each body ys s').
Proof.
  revert s. induction xs as [|x xs IH]; intros s; cbn; [done|].
  destruct (body s x) as [s'| |]; cbn; auto.
Qed.

Lemma for_each_nested {A B S} (body : S → B → outcome S) (f : A → list B)
    xs s :
  for_each (λ s x, for_each body (f x) s) xs s = for_each body (xs ≫= f) s.
Proof.
  revert s. induction xs as [|x xs IH]; intros s; cbn; [done|].
  rewrite for_each_app.
  destruct (for_each body (f x) s) as [s'| |]; cbn; auto.
Qed.

(** ** Graph construction *)

Section graph_facts.
Context {V : Type} `{Countable V}.
Implicit Types (G : DiGraph V) (u v n : V) (d : list (V * list V)).

Lemma wf_empty : wf_graph ([] : DiGraph V).
Proof.
  split.
  - constructor.
  - intros u nbrs Hin. by apply elem_of_nil in Hin.
  - intros u nbrs v Hin. by apply elem_of_nil in Hin.
Qed.

Lemma elem_of_nodes G n : n ∈ nodes G ↔ ∃ nbrs, (n, nbrs) ∈ G.
Proof.
  unfold nodes. rewrite list_elem_of_fmap. split.
  - intros [[n' nbrs] [-> Hin]]. eauto.
  - intros [nbrs Hin]. by exists (n, nbrs).
Qed.

Lemma has_edge_nodes G u v : wf_graph G → has_edge G u v →
  u ∈ nodes G ∧ v ∈ nodes G.
Proof.
  intros Hwf (nbrs & Hin & Hv). split.
  - apply elem_of_nodes. eauto.
  - eapply wf_closed; eauto.
Qed.

Lemma elem_of_add_node G n e :
  e ∈ add_node G n ↔ e ∈ G ∨ ((n ∉ nodes G) ∧ e = (n, [])).
Proof.
  unfold add_node. case_decide as Hn.
  - split; [by left|]. by intros [?|[? _]].
  - rewrite elem_of_app, list_elem_of_singleton.
    split; (intros [?|?]; [by left|right]); tauto.
Qed.

Lemma nodes_add_node G n x : x ∈ nodes (add_node G n) ↔ x ∈ nodes G ∨ x = n.
Proof.
  unfold add_node. case_decide as Hn.
  - split; [auto|]. intros [?| ->]; done.
  - unfold nodes. rewrite fmap_app, elem_of_app. cbn.
    rewrite list_elem_of_singleton. done.
Qed.

Lemma has_edge_add_node G n u v : has_edge (add_node G n) u v ↔ has_edge G u v.
Proof.
  unfold has_edge. split.
  - intros (nbrs & Hin & Hv). apply elem_of_add_node in Hin as [?|[_ Heq]].
    + eauto.
    + simplify_eq. by apply elem_of_nil in Hv.
  - intros (nbrs & Hin & Hv). exists nbrs. split; [|done].
    apply elem_of_add_node. auto.
Qed.

Lemma wf_add_node G n : wf_graph G → wf_graph (add_node G n).
Proof.
  intros [Hnd Hnb Hcl]. split.
  - unfold add_node. case_decide as Hn; [done|].
    unfold nodes in *. rewrite fmap_app. cbn. apply NoDup_app.
    split_and!; [done| |apply NoDup_singleton].
    intros x Hx ->%list_elem_of_singleton. done.
  - intros u nbrs [Hin|[_ Heq]]%elem_of_add_node; [eauto|].
    simplify_eq. constructor.
  - intros u nbrs v [Hin|[_ Heq]]%elem_of_add_node Hv.
    + apply nodes_add_node. eauto.
    + simplify_eq. by apply elem_of_nil in Hv.
Qed.

Lemma link_fst u v e : (link u v e).1 = e.1.
Proof. unfold link. by case_decide. Qed.

Lemma link_snd u v e x :
  x ∈ (link u v e).2 ↔ x ∈ e.2 ∨ (e.1 = u ∧ x = v).
Proof.
  unfold link. repeat case_decide; cbn;
    rewrite ?elem_of_app, ?list_elem_of_singleton;
    intuition (subst; auto).
Qed.

Lemma add_edge_unfold G u v :
  add_edge G u v = link u v <$> add_node (add_node G u) v.
Proof. done. Qed.

Lemma nodes_add_edge G u v x :
  x ∈ nodes (add_edge G u v) ↔ x ∈ nodes G ∨ x = u ∨ x = v.
Proof.
  rewrite add_edge_unfold. unfold nodes at 1. rewrite <-list_fmap_compose.
  erewrite list_fmap_ext; [|intros ? e _; apply (link_fst u v e)].
  fold (nodes (add_node (add_node G u) v)).
  rewrite !nodes_add_node. tauto.
Qed.

Lemma has_edge_add_edge G u v a b :
  has_edge (add_edge G u v) a b ↔ has_edge G a b ∨ (a = u ∧ b = v).
Proof.
  rewrite add_edge_unfold. set (G1 := add_node (add_node G u) v). split.
  - intros (nbrs & Hin & Hb).
    apply list_elem_of_fmap in Hin as ([a' nbrs'] & Heq & Hin).
    assert (a' = a) as ->.
    { pose proof (link_fst u v (a', nbrs')) as Hf. by rewrite <-Heq in Hf. }
    assert (b ∈ (link u v (a, nbrs')).2) as Hb' by (by rewrite <-Heq).
    apply link_snd in Hb' as [Hb'|[? ?]]; cbn in *; [|by right].
    left. apply (has_edge_add_node _ u), (has_edge_add_node _ v).
    by exists nbrs'.
  - intros [Hab|[-> ->]].
    + apply (has_edge_add_node _ u), (has_edge_add_node _ v) in Hab.
      destruct Hab as (nbrs & Hin & Hb).
      exists (link u v (a, nbrs)).2. split.
      * apply list_elem_of_fmap. exists (a, nbrs). split; [|done].
        by rewrite (surjective_pairing (link u v (a, nbrs))), link_fst.
      * apply link_snd. by left.
    + assert (u ∈ nodes G1) as Hu.
      { unfold G1. rewrite !nodes_add_node. auto. }
      apply elem_of_nodes in Hu as [nbrs Hin].
      exists (link u v (u, nbrs)).2. split.
      * apply list_elem_of_fmap. exists (u, nbrs). split; [|done].
        by rewrite (surjective_pairing (link u v (u, nbrs))), link_fst.
      * apply link_snd. by right.
Qed.

Lemma wf_add_edge G u v : wf_graph G → wf_graph (add_edge G u v).
Proof.
  intros Hwf.
  assert (wf_graph (add_node (add_node G u) v)) as [Hnd Hnb Hcl]
    by (by do 2 apply wf_add_node).
  rewrite add_edge_unfold. set (G1 := add_node (add_node G u) v) in *.
  assert (nodes (link u v <$> G1) = nodes G1) as Hnodes.
  { unfold nodes. rewrite <-list_fmap_compose.
    apply list_fmap_ext. intros ? e _. apply link_fst. }
  split.
  - by rewrite Hnodes.
  - intros a nbrs ([a' nbrs'] & Heq & Hin)%list_elem_of_fmap.
    unfold link in Heq. cbn in Heq. specialize (Hnb _ _ Hin).
    repeat case_decide; simplify_eq; try done.
    apply NoDup_app. split_and!; [done| |apply NoDup_singleton].
    intros x Hx ->%list_elem_of_singleton. done.
  - intros a nbrs b ([a' nbrs'] & Heq & Hin)%list_elem_of_fmap Hb.
    rewrite Hnodes.
    assert (b ∈ (link u v (a', nbrs')).2) as Hb' by (by rewrite <-Heq).
    apply link_snd in Hb' as [Hb'|[_ ->]]; cbn in *; [by eapply Hcl|].
    unfold G1. rewrite !nodes_add_node. auto.
Qed.

Lemma add_nodes_from_cons G n ns :
  add_nodes_from G (n :: ns) = add_nodes_from (add_node G n) ns.
Proof. done. Qed.

Lemma add_edges_from_cons G e es :
  add_edges_from G (e :: es) = add_edges_from (add_edge G e.1 e.2) es.
Proof. done. Qed.

Lemma wf_add_nodes_from G ns : wf_graph G → wf_graph (add_nodes_from G ns).
Proof.
  revert G. induction ns as [|n ns IH]; intros G Hwf; [done|].
  rewrite add_nodes_from_cons. by apply IH, wf_add_node.
Qed.

Lemma has_edge_add_nodes_from G ns u v :
  has_edge (add_nodes_from G ns) u v ↔ has_edge G u v.
Proof.
  revert G. induction ns as [|n ns IH]; intros G; [done|].
  by rewrite add_nodes_from_cons, IH, has_edge_add_node.
Qed.

Lemma nodes_add_nodes_from G ns x :
  x ∈ nodes (add_nodes_from G ns) ↔ x ∈ nodes G ∨ x ∈ ns.
Proof.
  revert G. induction ns as [|n ns IH]; intros G.
  - rewrite elem_of_nil. unfold add_nodes_from. cbn [foldl]. tauto.
  - rewrite add_nodes_from_cons, IH, nodes_add_node, elem_of_cons. tauto.
Qed.

Lemma wf_add_edges_from G es : wf_graph G → wf_graph (add_edges_from G es).
Proof.
  revert G. induction es as [|e es IH]; intros G Hwf; [done|].
  rewrite add_edges_from_cons. by apply IH, wf_add_edge.
Qed.

Lemma has_edge_add_edges_from G es u v :
  has_edge (add_edges_from G es) u v ↔ has_edge G u v ∨ (u, v) ∈ es.
Proof.
  revert G. induction es as [|[a b] es IH]; intros G.
  - rewrite elem_of_nil. unfold add_edges_from. cbn [foldl]. tauto.
  - rewrite add_edges_from_cons, IH, has_edge_add_edge, elem_of_cons.
    cbn [fst snd]. intuition (simplify_eq; auto).
Qed.

Lemma nodes_add_edges_from G es x :
  x ∈ nodes G → x ∈ nodes (add_edges_from G es).
Proof.
  revert G. induction es as [|[a b] es IH]; intros G Hx; [done|].
  rewrite add_edges_from_cons. apply IH, nodes_add_edge. auto.
Qed.

Lemma wf_from_dict_of_lists d : wf_graph (from_dict_of_lists d).
Proof.
  unfold from_dict_of_lists.
  apply wf_add_edges_from, wf_add_nodes_from, wf_empty.
Qed.

Lemma has_edge_from_dict_of_lists d u v :
  has_edge (from_dict_of_lists d) u v ↔ ∃ nbrs, (u, nbrs) ∈ d ∧ v ∈ nbrs.
Proof.
  unfold from_dict_of_lists.
  rewrite has_edge_add_edges_from, has_edge_add_nodes_from.
  rewrite list_elem_of_bind. split.
  - intros [(nbrs & Hin & _)|([a nbrs] & Hin & Hd)].
    + by apply elem_of_nil in Hin.
    + apply list_elem_of_fmap in Hin as (b & Heq & Hb). cbn in *.
      simplify_eq. eauto.
  - intros (nbrs & Hin & Hv). right. exists (u, nbrs). split; [|done].
    apply list_elem_of_fmap. eauto.
Qed.

Lemma nodes_from_dict_of_lists d n :
  n ∈ d.*1 → n ∈ nodes (from_dict_of_lists d).
Proof.
  intros Hn. unfold from_dict_of_lists.
  apply nodes_add_edges_from, nodes_add_nodes_from. auto.
Qed.

End graph_facts.

(** ** Counting arguments on lists *)

Section counting.
Context {A : Type} `{EqDecision A}.

Lemma NoDup_fmap_elem_inj {B} (f : A → B) (l : list A) x y :
  NoDup (f <$> l) → x ∈ l → y ∈ l → f x = f y → x = y.
Proof.
  intros Hnd [i Hi]%list_elem_of_lookup [j Hj]%list_elem_of_lookup Hf.
  assert (i = j) as ->; [|congruence].
  eapply NoDup_lookup; [exact Hnd| |].
  - by rewrite list_lookup_fmap, Hi.
  - by rewrite list_lookup_fmap, Hj, Hf.
Qed.

Lemma filter_none (P : A → Prop) `{∀ x, Decision (P x)} (l : list A) :
  (∀ x, x ∈ l → ¬ P x) → filter P l = [].
Proof.
  induction l as [|x l IH]; intros Hno; [done|].
  rewrite filter_cons_False by (apply Hno; left).
  apply IH. intros y Hy. apply Hno. by right.
Qed.

Lemma length_filter_fmap {B} (f : A → B) (P : A → Prop) (Q : B → Prop)
    `{∀ x, Decision (P x)} `{∀ y, Decision (Q y)} (l : list A) :
  (∀ x, x ∈ l → P x ↔ Q (f x)) →
  length (filter P l) = length (filter Q (f <$> l)).
Proof.
  induction l as [|x l IH]; intros HPQ; [done|].
  rewrite fmap_cons, !filter_cons.
  assert (P x ↔ Q (f x)) as Hx by (apply HPQ; left).
  assert (length (filter P l) = length (filter Q (f <$> l))) as IH'.
  { apply IH. intros y Hy. apply HPQ. by right. }
  repeat case_decide; cbn; try tauto; by rewrite IH'.
Qed.

Lemma length_filter_mono (P : A → Prop) `{∀ x, Decision (P x)}
    (l k : list A) :
  NoDup l → (∀ x, x ∈ l → P x → x ∈ k) →
  (length (filter P l) ≤ length (filter P k))%nat.
Proof.
  intros Hnd Hsub. apply submseteq_length, NoDup_submseteq.
  - by apply NoDup_filter.
  - intros x [HP Hx]%list_elem_of_filter. apply list_elem_of_filter. auto.
Qed.

Lemma length_filter_full (P : A → Prop) `{∀ x, Decision (P x)}
    (l k : list A) x :
  NoDup l → (∀ y, y ∈ l → y ∈ k) →
  length (filter P l) = length (filter P k) →
  x ∈ k → P x → x ∈ l.
Proof.
  intros Hnd Hsub Hlen Hx HP.
  assert (filter P l ≡ₚ filter P k) as Hperm.
  { apply submseteq_length_Permutation; [|lia].
    apply NoDup_submseteq; [by apply NoDup_filter|].
    intros y [? ?]%list_elem_of_filter. apply list_elem_of_filter. auto. }
  assert (x ∈ filter P l) as Hin.
  { rewrite Hperm. apply list_elem_of_filter. auto. }
  by apply list_elem_of_filter in Hin as [_ ?].
Qed.

Lemma length_filter_short (P : A → Prop) `{∀ x, Decision (P x)}
    (l k : list A) :
  NoDup k → (length (filter P l) < length (filter P k))%nat →
  ∃ x, x ∈ k ∧ P x ∧ x ∉ l.
Proof.
  intros Hnd Hlt.
  destruct (decide (Exists (λ x, P x ∧ x ∉ l) k)) as [Hex|Hno].
  - apply Exists_exists in Hex as (x & Hx & HP & Hnl). eauto.
  - exfalso. apply not_Exists_Forall in Hno; [|apply _].
    rewrite Forall_forall in Hno.
    assert (length (filter P k) ≤ length (filter P l))%nat; [|lia].
    apply length_filter_mono; [done|].
    intros x Hx HP. destruct (decide (x ∈ l)) as [|Hnl]; [done|].
    destruct (Hno x Hx). auto.
Qed.

Lemma occ_nil (v : A) : occ v [] = 0%nat.
Proof. done. Qed.

Lemma occ_app (v : A) l k : occ v (l ++ k) = (occ v l + occ v k)%nat.
Proof. unfold occ. by rewrite filter_app, length_app. Qed.

Lemma occ_singleton (v x : A) : occ v [x] = if decide (x = v) then 1%nat else 0%nat.
Proof. unfold occ. rewrite filter_cons. by case_decide. Qed.

Lemma occ_snoc_eq (v : A) l : occ v (l ++ [v]) = S (occ v l).
Proof. rewrite occ_app, occ_singleton. case_decide; [lia|done]. Qed.

Lemma occ_snoc_ne (v x : A) l : x ≠ v → occ v (l ++ [x]) = occ v l.
Proof. intros. rewrite occ_app, occ_singleton. case_decide; [done|lia]. Qed.

Lemma occ_NoDup (v : A) l :
  NoDup l → occ v l = if decide (v ∈ l) then 1%nat else 0%nat.
Proof.
  induction 1 as [|x l Hx Hnd IH].
  - rewrite occ_nil. case_decide as Hin; [|done]. by apply elem_of_nil in Hin.
  - change (x :: l) with ([x] ++ l). rewrite occ_app, occ_singleton, IH.
    destruct (decide (x = v)) as [->|Hne], (decide (v ∈ l)) as [Hl|Hl];
      try done; cbn [app].
    + rewrite decide_True; [done|left].
    + rewrite decide_True; [done|by right].
    + rewrite decide_False; [done|].
      by intros [->|?]%elem_of_cons.
Qed.

Lemma occ_bind {B} (f : B → list A) (v : A) (l : list B) :
  (∀ u, NoDup (f u)) →
  occ v (l ≫= f) = length (filter (λ u, v ∈ f u) l).
Proof.
  intros Hf. induction l as [|u l IH]; [done|].
  rewrite bind_cons, occ_app, IH, occ_NoDup, filter_cons by done.
  by case_decide.
Qed.

End counting.

(** ** The topological sort *)

Section kahn_facts.
Context {V : Type} `{Countable V}.
Variable G : DiGraph V.
Hypothesis Hwf : wf_graph G.
Implicit Types (u v c : V) (T C P : list V) (m : gmap V Z).

Lemma neighbors_elem u nbrs : (u, nbrs) ∈ G → neighbors G u = nbrs.
Proof using Hwf.
  intros Hin. unfold neighbors.
  destruct (list_find _ G) as [[i e]|] eqn:Hfind.
  - apply list_find_Some in Hfind as (Hi & He & _).
    apply list_elem_of_lookup_2 in Hi.
    assert (e = (u, nbrs)) as ->; [|done].
    eapply (NoDup_fmap_elem_inj fst); eauto. apply Hwf.
  - apply list_find_None in Hfind. rewrite Forall_forall in Hfind.
    by destruct (Hfind _ Hin).
Qed.

Lemma has_edge_neighbors u v : has_edge G u v ↔ v ∈ neighbors G u.
Proof using Hwf.
  split.
  - intros (nbrs & Hin & Hv). by rewrite (neighbors_elem _ _ Hin).
  - unfold neighbors. destruct (list_find _ G) as [[i [a nbrs]]|] eqn:Hfind.
    + apply list_find_Some in Hfind as (Hi & He & _). cbn in *. subst a.
      apply list_elem_of_lookup_2 in Hi. intros Hv. by exists nbrs.
    + intros Hv. by apply elem_of_nil in Hv.
Qed.

Lemma NoDup_neighbors u : NoDup (neighbors G u).
Proof using Hwf.
  unfold neighbors. destruct (list_find _ G) as [[i [a nbrs]]|] eqn:Hfind.
  - apply list_find_Some in Hfind as (Hi & _ & _).
    apply list_elem_of_lookup_2 in Hi. by eapply wf_nbrs.
  - constructor.
Qed.

Lemma neighbors_closed u v :
  v ∈ neighbors G u → u ∈ nodes G ∧ v ∈ nodes G.
Proof using Hwf.
  intros Hv%has_edge_neighbors. by apply has_edge_nodes.
Qed.

Lemma in_degree_deg v : in_degree G v = Z.of_nat (deg G v).
Proof using Hwf.
  unfold in_degree, deg, preds_in, nodes. f_equal.
  apply (length_filter_fmap fst). intros [u nbrs] Hin. cbn.
  by rewrite (neighbors_elem _ _ Hin).
Qed.

Lemma occ_neighbors v (L : list V) :
  occ v (L ≫= neighbors G) = preds_in G L v.
Proof using Hwf. apply occ_bind, NoDup_neighbors. Qed.

Lemma preds_in_le L v :
  NoDup L → (∀ x, x ∈ L → x ∈ nodes G) → (preds_in G L v ≤ deg G v)%nat.
Proof. intros Hnd Hsub. apply length_filter_mono; auto. Qed.

Lemma preds_in_full L u v :
  NoDup L → (∀ x, x ∈ L → x ∈ nodes G) → preds_in G L v = deg G v →
  v ∈ neighbors G u → u ∈ L.
Proof using Hwf.
  intros Hnd Hsub Hlen Hv.
  eapply (length_filter_full (λ u, v ∈ neighbors G u)); eauto.
  by apply neighbors_closed in Hv as [? _].
Qed.

Lemma preds_in_short L v :
  (preds_in G L v < deg G v)%nat →
  ∃ u, u ∈ nodes G ∧ v ∈ neighbors G u ∧ u ∉ L.
Proof using Hwf. apply length_filter_short, Hwf. Qed.

Lemma deg_pos_node v : (0 < deg G v)%nat → v ∈ nodes G.
Proof using Hwf.
  intros Hpos. destruct (preds_in_short [] v) as (u & _ & Hv & _); [done|].
  by apply neighbors_closed in Hv as [_ ?].
Qed.

Lemma relax_ok T m zero c :
  counts_ok G T m → (occ c (T ++ [c]) ≤ deg G c)%nat →
  ∃ m',
    relax (m, zero) c =
      Ok (m', zero ++ if decide (occ c (T ++ [c]) = deg G c) then [c] else [])
    ∧ counts_ok G (T ++ [c]) m'.
Proof.
  intros Hm Hle. rewrite occ_snoc_eq in Hle |- *.
  destruct (Hm c) as [_ Hc]. rewrite decide_True in Hc by lia.
  unfold relax. rewrite Hc.
  destruct (decide (Z.of_nat (deg G c - occ c T) - 1 = 0)) as [Hz|Hz].
  - rewrite decide_True by lia. eexists. split; [done|].
    intros v. destruct (decide (c = v)) as [<-|Hne].
    + rewrite occ_snoc_eq. split; [lia|].
      rewrite lookup_delete_eq, decide_False by lia. done.
    + rewrite occ_snoc_ne by done. destruct (Hm v) as [Hle' Hv].
      rewrite lookup_delete_ne, lookup_insert_ne by done. done.
  - rewrite decide_False by lia. rewrite app_nil_r. eexists. split; [done|].
    intros v. destruct (decide (c = v)) as [<-|Hne].
    + rewrite occ_snoc_eq. split; [lia|].
      rewrite lookup_insert_eq, decide_True by lia. f_equal. lia.
    + rewrite occ_snoc_ne by done. destruct (Hm v) as [Hle' Hv].
      rewrite lookup_insert_ne by done. done.
Qed.

Lemma relax_all_ok C : ∀ T m zero,
  counts_ok G T m → (∀ v, occ v (T ++ C) ≤ deg G v)%nat →
  ∃ m' new,
    for_each relax C (m, zero) = Ok (m', zero ++ new)
    ∧ counts_ok G (T ++ C) m'
    ∧ NoDup new
    ∧ ∀ v, v ∈ new ↔ (occ v T < deg G v)%nat ∧ occ v (T ++ C) = deg G v.
Proof.
  induction C as [|c C IH]; intros T m zero Hm Hle.
  - exists m, []. rewrite !app_nil_r. split_and!; [done|done|constructor|].
    intros v. rewrite elem_of_nil. lia.
  - assert (∀ v, occ v (T ++ c :: C) = occ v (T ++ [c]) + occ v C)%nat
      as Hsplit.
    { intros v. by rewrite (cons_middle c T C), app_assoc, occ_app. }
    destruct (relax_ok T m zero c Hm) as (m1 & Hstep & Hm1).
    { specialize (Hle c). rewrite Hsplit in Hle. lia. }
    destruct (IH (T ++ [c]) m1
                (zero ++ if decide (occ c (T ++ [c]) = deg G c) then [c] else [])
                Hm1)
      as (m' & new & Hrun & Hm' & Hnd & Hnew).
    { intros v. rewrite <-app_assoc. apply Hle. }
    rewrite <-app_assoc in Hrun, Hm'. cbn [app] in Hrun, Hm'.
    exists m', ((if decide (occ c (T ++ [c]) = deg G c) then [c] else []) ++ new).
    split_and!.
    + cbn [for_each]. rewrite Hstep. exact Hrun.
    + done.
    + case_decide as Hc; [|done]. cbn. constructor; [|done].
      rewrite Hnew. lia.
    + assert (∀ v, v ∈ new ↔
                (occ v (T ++ [c]) < deg G v)%nat
                ∧ (occ v (T ++ [c]) + occ v C)%nat = deg G v) as Hnew'.
      { intros v. by rewrite Hnew, (occ_app v (T ++ [c]) C). }
      intros v. rewrite elem_of_app, Hnew'. specialize (Hle v).
      rewrite Hsplit in Hle |- *. case_decide as Hc.
      * rewrite list_elem_of_singleton.
        destruct (decide (c = v)) as [<-|Hne].
        -- rewrite occ_snoc_eq in *. split; [intros _; lia|auto].
        -- rewrite occ_snoc_ne in * by done.
           split; [intros [?|?]; [done|lia]|]. intros ?. right. lia.
      * rewrite elem_of_nil.
        destruct (decide (c = v)) as [<-|Hne].
        -- rewrite occ_snoc_eq in *. lia.
        -- rewrite occ_snoc_ne in * by done. lia.
Qed.

Lemma visit_node x st :
  x ∈ nodes G → visit G st x = for_each relax (neighbors G x) st.
Proof. intros Hx. unfold visit. by rewrite decide_True. Qed.

Lemma visit_generation gen st :
  (∀ x, x ∈ gen → x ∈ nodes G) →
  for_each (visit G) gen st = for_each relax (gen ≫= neighbors G) st.
Proof.
  intros Hgen. rewrite <-for_each_nested.
  revert st. induction gen as [|x gen IH]; intros st; [done|].
  cbn [for_each]. rewrite visit_node by (apply Hgen; left).
  destruct (for_each relax (neighbors G x) st) as [st'| |]; cbn; [|done..].
  apply IH. intros y Hy. apply Hgen. by right.
Qed.

Lemma generation_step P m zero :
  loop_inv G P m zero →
  ∃ m' zero',
    for_each (visit G) zero (m, []) = Ok (m', zero')
    ∧ loop_inv G (P ++ zero) m' zero'.
Proof using Hwf.
  intros [Hnd Hsub Hm Hdone Htopo].
  assert (∀ v, occ v ((P ≫= neighbors G) ++ (zero ≫= neighbors G))
               = preds_in G (P ++ zero) v) as Hocc.
  { intros v. by rewrite <-bind_app, occ_neighbors. }
  destruct (relax_all_ok (zero ≫= neighbors G) (P ≫= neighbors G) m [] Hm)
    as (m' & new & Hrun & Hm' & Hnew_nd & Hnew).
  { intros v. rewrite Hocc. by apply preds_in_le. }
  assert (∀ v, v ∈ new ↔
            (preds_in G P v < deg G v)%nat ∧ preds_in G (P ++ zero) v = deg G v)
    as Hnew'.
  { intros v. by rewrite Hnew, Hocc, occ_neighbors. }
  assert (∀ v, preds_in G P v ≤ preds_in G (P ++ zero) v)%nat as Hmono.
  { intros v. unfold preds_in. rewrite filter_app, length_app. lia. }
  assert (∀ v, v ∈ new → v ∈ nodes G) as Hnew_nodes.
  { intros v [Hlt _]%Hnew'. apply deg_pos_node. lia. }
  exists m', new. split.
  { rewrite visit_generation; [done|]. intros x Hx. apply Hsub.
    apply elem_of_app. by right. }
  split.
  - apply NoDup_app. split_and!; [done| |done].
    intros v Hv [Hlt _]%Hnew'. apply Hdone in Hv; [lia|by apply Hsub].
  - intros x [Hx|Hx]%elem_of_app; auto.
  - rewrite bind_app. done.
  - intros v Hv. rewrite elem_of_app, Hnew', (Hdone v Hv).
    assert (preds_in G (P ++ zero) v ≤ deg G v)%nat by (by apply preds_in_le).
    specialize (Hmono v). lia.
  - intros u v Huv [Hv|Hv]%elem_of_app.
    + by apply before_app_l, Htopo.
    + apply before_app; [|done].
      assert (v ∈ nodes G) as Hvn by (apply Hsub, elem_of_app; by right).
      assert (preds_in G P v = deg G v) as Hfull.
      { apply (Hdone v Hvn), elem_of_app. by right. }
      apply NoDup_app in Hnd as (HndP & _ & _).
      eapply preds_in_full; eauto.
      intros x Hx. apply Hsub, elem_of_app. by left.
Qed.

Lemma generations_loop_spec fuel : ∀ P m zero,
  loop_inv G P m zero →
  (length (nodes G) < fuel + length P)%nat →
  (∃ gens,
     generations_loop fuel G m zero = Ok gens
     ∧ P ++ concat gens ≡ₚ nodes G
     ∧ ∀ u v, has_edge G u v → before (P ++ concat gens) u v)
  ∨ (generations_loop fuel G m zero = Raise unfeasible ∧ ∃ R, stuck G R).
Proof using Hwf.
  induction fuel as [|fuel IH]; intros P m zero Hinv Hfuel.
  - destruct Hinv as [Hnd Hsub _ _ _]. exfalso.
    assert (length (P ++ zero) ≤ length (nodes G))%nat as Hlen.
    { apply submseteq_length, NoDup_submseteq; done. }
    rewrite length_app in Hlen. lia.
  - destruct zero as [|z zero].
    + cbn [generations_loop]. destruct Hinv as [Hnd Hsub Hm Hdone Htopo].
      rewrite app_nil_r in *. case_decide as Hempty.
      * left. exists []. cbn [concat]. rewrite app_nil_r.
        assert (∀ v, v ∈ nodes G → v ∈ P) as Hall.
        { intros v Hv. apply (Hdone v Hv). destruct (Hm v) as [Hle Hlook].
          rewrite Hempty, lookup_empty in Hlook.
          rewrite occ_neighbors in Hle, Hlook. case_decide; [done|lia]. }
        split_and!; [done| |].
        -- apply NoDup_Permutation; [done|apply Hwf|]. intros x. split; auto.
        -- intros u v Huv. apply Htopo; [by apply has_edge_neighbors|].
           by apply Hall, (has_edge_nodes G u v).
      * right. split; [done|].
        exists (elements (dom m)). split.
        -- apply map_choose in Hempty as (v & d & Hv). intros Hnil.
           assert (v ∈ elements (dom m)) as Hin.
           { apply elem_of_elements, elem_of_dom. eauto. }
           rewrite Hnil in Hin. by apply elem_of_nil in Hin.
        -- intros v [d Hv]%elem_of_elements%elem_of_dom.
           destruct (Hm v) as [Hle Hlook]. rewrite Hv in Hlook.
           rewrite occ_neighbors in Hle, Hlook.
           case_decide as Hlt; [|done].
           destruct (preds_in_short P v Hlt) as (u & Hu & Huv & HuP).
           exists u. split; [|by apply has_edge_neighbors].
           apply elem_of_elements, elem_of_dom.
           destruct (Hm u) as [Hle' Hlook'].
           rewrite occ_neighbors in Hle', Hlook'.
           destruct (decide (preds_in G P u < deg G u)%nat) as [Hlt'|Hlt'];
             [by apply mk_is_Some in Hlook'|].
           exfalso. apply HuP, (Hdone u Hu). lia.
    + cbn [generations_loop].
      destruct (generation_step P m (z :: zero) Hinv)
        as (m' & zero' & Hrun & Hinv').
      rewrite Hrun. cbn [mbind outcome_bind fst snd].
      destruct (IH (P ++ z :: zero) m' zero' Hinv') as
        [(gens & Hgens & Hperm & Hord)|(Hraise & R & HR)].
      { rewrite length_app. cbn [length]. lia. }
      * left. exists ((z :: zero) :: gens). rewrite Hgens. cbn [concat].
        rewrite <-app_assoc in Hperm, Hord. split_and!; done.
      * right. rewrite Hraise. split; [done|]. by exists R.
Qed.

Lemma initial_loop_inv :
  let degrees := (λ v, (v, in_degree G v)) <$> nodes G in
  loop_inv G []
    (list_to_map (filter (λ vd, 0 < vd.2) degrees))
    (filter (λ vd : V * Z, vd.2 = 0) degrees).*1.
Proof using Hwf.
  intros degrees.
  assert (degrees.*1 = nodes G) as Hkeys.
  { unfold degrees. rewrite <-list_fmap_compose. apply list_fmap_id. }
  assert (∀ v d, (v, d) ∈ degrees ↔ v ∈ nodes G ∧ d = Z.of_nat (deg G v))
    as Hdeg.
  { intros v d. unfold degrees. rewrite list_elem_of_fmap. split.
    - intros (v' & Heq & Hv'). simplify_eq. by rewrite in_degree_deg.
    - intros [Hv ->]. exists v. by rewrite in_degree_deg. }
  assert (∀ P : V * Z → Prop, ∀ `{∀ x, Decision (P x)},
            NoDup (filter P degrees).*1) as Hfnd.
  { intros P ?. eapply sublist_NoDup; [|apply fmap_sublist, sublist_filter].
    rewrite Hkeys. apply Hwf. }
  split.
  - cbn [app]. apply Hfnd.
  - cbn [app]. intros x ([x' d] & -> & [_ Hin]%list_elem_of_filter)%list_elem_of_fmap.
    by apply Hdeg in Hin as [? _].
  - intros v. change ([] ≫= neighbors G) with (@nil V). rewrite occ_nil.
    split; [lia|]. case_decide as Hpos.
    + apply elem_of_list_to_map; [apply Hfnd|].
      apply list_elem_of_filter. cbn [snd]. rewrite Nat.sub_0_r.
      split; [lia|].
      apply Hdeg. split; [by apply deg_pos_node|done].
    + apply not_elem_of_list_to_map.
      intros ([v' d] & Heq & [Hd Hin]%list_elem_of_filter)%list_elem_of_fmap.
      cbn in *. subst v'. apply Hdeg in Hin as [_ ->]. lia.
  - intros v Hv. cbn [app]. unfold preds_in at 1. cbn. split.
    + intros ([v' d] & Heq & [Hd Hin]%list_elem_of_filter)%list_elem_of_fmap.
      cbn in *. subst v'. apply Hdeg in Hin as [_ ->]. lia.
    + intros Hz. apply list_elem_of_fmap. exists (v, 0). split; [done|].
      apply list_elem_of_filter. split; [done|]. apply Hdeg. split; [done|lia].
  - intros u v _ Hv. by apply elem_of_nil in Hv.
Qed.

Lemma topological_sort_spec :
  (∃ order,
     topological_sort G = Ok order
     ∧ order ≡ₚ nodes G
     ∧ ∀ u v, has_edge G u v → before order u v)
  ∨ (topological_sort G = Raise unfeasible ∧ ∃ R, stuck G R).
Proof using Hwf.
  unfold topological_sort, topological_generations.
  destruct (generations_loop_spec (S (length G)) [] _ _ initial_loop_inv)
    as [(gens & Hgens & Hperm & Hord)|(Hraise & HR)].
  { unfold nodes. rewrite length_fmap. cbn. lia. }
  - left. cbn [app] in *. exists (concat gens). by rewrite Hgens.
  - right. by rewrite Hraise.
Qed.

(** On a graph without cycle the sort returns: every node once, the source
    of every edge before its target. *)
Lemma topological_sort_acyclic :
  acyclic (has_edge G) →
  ∃ order,
    topological_sort G = Ok order
    ∧ order ≡ₚ nodes G
    ∧ ∀ u v, has_edge G u v → before order u v.
Proof using Hwf.
  intros Hacyc.
  destruct topological_sort_spec as [?|(_ & R & Hne & HR)]; [done|].
  by destruct (acyclic_not_stuck (has_edge G) R).
Qed.

(** On a graph with a cycle the sort raises [NetworkXUnfeasible]. *)
Lemma topological_sort_cyclic :
  ¬ acyclic (has_edge G) → topological_sort G = Raise unfeasible.
Proof using Hwf.
  intros Hcyc.
  destruct topological_sort_spec as [(order & _ & Hperm & Hord)|[? _]];
    [|done].
  destruct Hcyc. apply (before_acyclic _ order); [|done].
  rewrite Hperm. apply Hwf.
Qed.

End kahn_facts.

(** ** The catalog and the dependency graph *)

Lemma acyclic_by_depth {A} (R : relation A) (depth : A → nat) :
  (∀ x y, R x y → (depth y < depth x)%nat) → acyclic R.
Proof.
  intros Hdepth x Hxx.
  assert (∀ u v, tc R u v → (depth v < depth u)%nat) as Htc.
  { induction 1 as [u v Huv|u v w Huv _ IH]; [auto|].
    apply Hdepth in Huv. lia. }
  apply Htc in Hxx. lia.
Qed.

Lemma iterate_perm E s : iterate E s ≡ₚ elements s.
Proof. apply merge_sort_Permutation. Qed.

Lemma elem_of_iterate E s x : x ∈ iterate E s ↔ x ∈ s.
Proof. by rewrite iterate_perm, elem_of_elements. Qed.

Lemma NoDup_iterate E s : NoDup (iterate E s).
Proof. rewrite iterate_perm. apply NoDup_elements. Qed.

Lemma has_edge_dependency_graph E k d :
  has_edge (get_state_dependency_graph E) k d ↔ depends_on E k d.
Proof.
  unfold get_state_dependency_graph, depends_on.
  rewrite has_edge_from_dict_of_lists. split.
  - intros (nbrs & (s & Heq & Hs)%list_elem_of_fmap & Hd). simplify_eq.
    by apply elem_of_iterate in Hs.
  - intros [Hk Hd]. eexists. split; [|exact Hd].
    apply list_elem_of_fmap. exists k. split; [done|].
    by apply elem_of_iterate.
Qed.

Lemma acyclic_dependency_graph E :
  acyclic (depends_on E) ↔ acyclic (has_edge (get_state_dependency_graph E)).
Proof.
  split; intros Hacyc x Hxx; apply (Hacyc x).
  - eapply (tc_congruence id); [|exact Hxx].
    intros ??. apply has_edge_dependency_graph.
  - eapply (tc_congruence id); [|exact Hxx].
    intros ??. apply has_edge_dependency_graph.
Qed.

(** ** The claims *)

(** C1. In every environment whose dependency relation has no cycle, for
    every catalog member [k] and every required dependency [d] of [k],
    [get_states_by_dependency_order] returns a sequence without repetition
    in which [d] stands before [k]. *)
Theorem dependency_order_prerequisite_first (E : ClassEnv) (k d : PyClass) :
  acyclic (depends_on E) →
  k ∈ get_all_states E →
  d ∈ get_dependencies E k →
  ∃ order,
    get_states_by_dependency_order E = Ok order
    ∧ NoDup order
    ∧ before order d k.
Proof.
  intros Hacyc Hk Hd.
  destruct (topological_sort_acyclic (get_state_dependency_graph E))
    as (order & Hsort & Hperm & Hord).
  { apply wf_from_dict_of_lists. }
  { by apply acyclic_dependency_graph. }
  exists (reverse order). split_and!.
  - unfold get_state_dependency_graph in Hsort.
    unfold get_states_by_dependency_order, get_state_dependency_graph.
    by rewrite Hsort.
  - rewrite reverse_Permutation, Hperm. apply wf_from_dict_of_lists.
  - apply before_reverse, Hord, has_edge_dependency_graph.
    split; [done|]. apply elem_of_app. by left.
Qed.

Ltac solve_listed :=
  try apply elem_of_list_to_set;
  apply (bool_decide_unpack _); vm_compute; exact I.

Lemma sample_env_acyclic : acyclic (depends_on sample_env).
Proof.
  apply (acyclic_by_depth _ sample_depth). intros k d [_ Hd].
  destruct k; cbn in Hd;
    repeat (apply elem_of_cons in Hd as [->|Hd]; [cbn; lia|]);
    by apply elem_of_nil in Hd.
Qed.

Lemma dependency_order_prerequisite_first_witness :
  ∃ order,
    get_states_by_dependency_order sample_env = Ok order
    ∧ NoDup order
    ∧ before order MaxTemperature Cooked.
Proof.
  apply (dependency_order_prerequisite_first sample_env Cooked MaxTemperature).
  - exact sample_env_acyclic.
  - unfold get_all_states, _ALL_STATES, frozenset. solve_listed.
  - cbn. solve_listed.
Defined.

(** C3, as stated, fails: [Cooked] requires [MaxTemperature], and the graph
    has no edge from [MaxTemperature] to [Cooked]. *)
Lemma dependency_graph_edge_direction_counterexample :
  ¬ ∀ k d,
      k ∈ get_all_states sample_env →
      d ∈ get_dependencies sample_env k
          ++ get_optional_dependencies sample_env k →
      has_edge (get_state_dependency_graph sample_env) d k.
Proof.
  intros Hclaim.
  assert (has_edge (get_state_dependency_graph sample_env)
            MaxTemperature Cooked) as Hedge.
  { apply Hclaim.
    - unfold get_all_states, _ALL_STATES, frozenset. solve_listed.
    - cbn. solve_listed. }
  apply has_edge_dependency_graph in Hedge as [_ Hin]. cbn in Hin.
  apply list_elem_of_singleton in Hin. discriminate.
Qed.

(** C3, amended. For every catalog member [k] and every required or
    optional dependency [d] of [k], the graph built by
    [get_state_dependency_graph] contains the edge from [k] to [d]: edges
    point from dependent to prerequisite. *)
Theorem dependency_graph_edges (E : ClassEnv) (k d : PyClass) :
  k ∈ get_all_states E →
  d ∈ get_dependencies E k ++ get_optional_dependencies E k →
  has_edge (get_state_dependency_graph E) k d.
Proof. intros Hk Hd. by apply has_edge_dependency_graph. Qed.

Lemma dependency_graph_edges_witness :
  has_edge (get_state_dependency_graph sample_env) Cooked MaxTemperature.
Proof.
  apply (dependency_graph_edges sample_env Cooked MaxTemperature).
  - unfold get_all_states, _ALL_STATES, frozenset. solve_listed.
  - cbn. solve_listed.
Defined.

Lemma cyclic_env_cycle : ∃ x, tc (depends_on cyclic_env) x x.
Proof.
  exists Heated. apply (tc_l _ _ Temperature); [|apply tc_once].
  - split; [unfold get_all_states, _ALL_STATES, frozenset|cbn]; solve_listed.
  - split; [unfold get_all_states, _ALL_STATES, frozenset|cbn]; solve_listed.
Qed.

(** C4, as stated, fails: with [Heated] and [Temperature] requiring each
    other the call raises [NetworkXUnfeasible] with a fixed message that
    names no state; no exception called CyclicDependencyError is raised. *)
Lemma cycle_error_counterexample :
  get_states_by_dependency_order cyclic_env
    = Raise (NetworkXUnfeasible
               "Graph contains a cycle or graph changed during iteration")
  ∧ ¬ ∃ e, get_states_by_dependency_order cyclic_env = Raise e
           ∧ exn_name e = "CyclicDependencyError".
Proof.
  assert (get_states_by_dependency_order cyclic_env
          = Raise (NetworkXUnfeasible
               "Graph contains a cycle or graph changed during iteration"))
    as Hrun by (vm_compute; reflexivity).
  split; [done|]. rewrite Hrun. intros (e & [= <-] & Hname). discriminate.
Qed.

(** C4, amended. If the dependency relation contains a cycle, then
    [get_states_by_dependency_order] returns no order: it raises
    [NetworkXUnfeasible] with the message "Graph contains a cycle or graph
    changed during iteration", which does not report the cycle. *)
Theorem cyclic_dependencies_unfeasible (E : ClassEnv) :
  (∃ x, tc (depends_on E) x x) →
  get_states_by_dependency_order E
    = Raise (NetworkXUnfeasible
               "Graph contains a cycle or graph changed during iteration").
Proof.
  intros (x & Hxx).
  pose proof (topological_sort_cyclic (get_state_dependency_graph E))
    as Hsort.
  unfold get_states_by_dependency_order. rewrite Hsort; [done| |].
  - apply wf_from_dict_of_lists.
  - intros Hacyc. apply acyclic_dependency_graph in Hacyc. by apply (Hacyc x).
Qed.

Lemma cyclic_dependencies_unfeasible_witness :
  get_states_by_dependency_order cyclic_env
    = Raise (NetworkXUnfeasible
               "Graph contains a cycle or graph changed during iteration").
Proof.
  apply (cyclic_dependencies_unfeasible cyclic_env).
  exact cyclic_env_cycle.
Defined.

(** C5, as stated, fails: "flies" is no key of the ability table, and the
    lookup returns the empty list instead of raising. *)
Lemma unknown_ability_counterexample :
  _ABILITY_TO_STATE_MAPPING sample_env !! "flies" = None
  ∧ get_states_for_ability sample_env "flies" = Ok []
  ∧ ¬ ∃ e, get_states_for_ability sample_env "flies" = Raise e
           ∧ exn_name e = "UnknownAbilityError".
Proof.
  assert (_ABILITY_TO_STATE_MAPPING sample_env !! "flies" = None) as Hkey
    by (vm_compute; reflexivity).
  unfold get_states_for_ability. rewrite Hkey. split_and!; [done..|].
  intros (e & [=] & _).
Qed.

(** C5, amended. For every ability name that is not a key of
    [_ABILITY_TO_STATE_MAPPING], [get_states_for_ability] returns the empty
    list and raises nothing; for a key it returns the mapped list. *)
Theorem get_states_for_ability_unknown (E : ClassEnv) (ability : string) :
  (_ABILITY_TO_STATE_MAPPING E !! ability = None →
   get_states_for_ability E ability = Ok [])
  ∧ (∀ states, _ABILITY_TO_STATE_MAPPING E !! ability = Some states →
     get_states_for_ability E ability = Ok states).
Proof.
  unfold get_states_for_ability. split.
  - by intros ->.
  - by intros states ->.
Qed.

Lemma get_states_for_ability_unknown_witness :
  get_states_for_ability sample_env "flies" = Ok []
  ∧ get_states_for_ability sample_env "robot"
    = Ok [OtherClass 0; OtherClass 1; ObjectsInFOVOfRobot].
Proof.
  destruct (get_states_for_ability_unknown sample_env "flies") as [Hnone _].
  destruct (get_states_for_ability_unknown sample_env "robot") as [_ Hsome].
  split.
  - apply Hnone. vm_compute. reflexivity.
  - apply Hsome. vm_compute. reflexivity.
Defined.

(** *** The order of independent states *)

Section no_edges.
Context {V : Type} `{Countable V}.
Implicit Types (l : list V) (G : DiGraph V).

Lemma nodes_isolated l : nodes (isolated l) = l.
Proof.
  unfold nodes, isolated. rewrite <-list_fmap_compose. apply list_fmap_id.
Qed.

Lemma add_nodes_from_fresh l : ∀ G,
  NoDup l → (∀ x, x ∈ l → x ∉ nodes G) →
  add_nodes_from G l = G ++ isolated l.
Proof.
  induction l as [|x l IH]; intros G Hnd Hfresh.
  - unfold add_nodes_from, isolated. cbn. by rewrite app_nil_r.
  - apply NoDup_cons in Hnd as [Hx Hnd].
    rewrite add_nodes_from_cons, IH; [|done|].
    + unfold add_node. rewrite decide_False by (apply Hfresh; left).
      unfold isolated. rewrite fmap_cons, <-app_assoc. done.
    + intros y Hy [Hin| ->]%nodes_add_node; [|done].
      by apply (Hfresh y); [right|].
Qed.

Lemma from_dict_of_lists_isolated l :
  NoDup l → from_dict_of_lists (isolated l) = isolated l.
Proof.
  intros Hnd. unfold from_dict_of_lists.
  assert ((isolated l ≫= λ e, (λ nbr, (e.1, nbr)) <$> e.2) = []) as ->.
  { unfold isolated. induction l as [|x l IH]; [done|].
    apply NoDup_cons in Hnd as [_ Hnd]. rewrite fmap_cons, bind_cons.
    cbn [fst snd fmap list_fmap app]. by apply IH. }
  fold (nodes (isolated l)). rewrite nodes_isolated.
  rewrite add_nodes_from_fresh; [done|done|].
  intros x _ Hx. by apply elem_of_nil in Hx.
Qed.

Lemma neighbors_isolated l x : neighbors (isolated l) x = [].
Proof.
  unfold neighbors. destruct (list_find _ _) as [[i e]|] eqn:Hfind; [|done].
  apply list_find_Some in Hfind as (Hi & _ & _).
  apply list_elem_of_lookup_2, list_elem_of_fmap in Hi as (s & -> & _). done.
Qed.

Lemma in_degree_isolated l v : in_degree (isolated l) v = 0.
Proof.
  unfold in_degree. replace (filter _ (isolated l)) with (@nil (V * list V));
    [done|].
  symmetry. apply filter_none.
  intros e (s & -> & _)%list_elem_of_fmap Hv. by apply elem_of_nil in Hv.
Qed.

Lemma visit_isolated l gen st :
  (∀ x, x ∈ gen → x ∈ l) → for_each (visit (isolated l)) gen st = Ok st.
Proof.
  revert st. induction gen as [|x gen IH]; intros st Hgen; [done|].
  cbn [for_each]. assert (visit (isolated l) st x = Ok st) as ->.
  { unfold visit. rewrite nodes_isolated, decide_True by (apply Hgen; left).
    by rewrite neighbors_isolated. }
  cbn. apply IH. intros y Hy. apply Hgen.
  by right.
Qed.

Lemma topological_sort_isolated l : topological_sort (isolated l) = Ok l.
Proof.
  unfold topological_sort, topological_generations.
  rewrite nodes_isolated.
  erewrite (list_fmap_ext _ (λ v, (v, 0)) l);
    [|intros i x _; by rewrite in_degree_isolated].
  assert (filter (λ vd : V * Z, 0 < vd.2) ((λ v, (v, 0)) <$> l) = []) as ->.
  { apply filter_none.
    intros e (s & -> & _)%list_elem_of_fmap Hpos. cbn in Hpos. lia. }
  assert ((filter (λ vd : V * Z, vd.2 = 0) ((λ v, (v, 0)) <$> l)).*1 = l)
    as ->.
  { induction l as [|x l IH]; [done|].
    rewrite fmap_cons, filter_cons_True by done. cbn. by rewrite IH. }
  destruct l as [|x l]; [done|].
  cbn [generations_loop]. rewrite visit_isolated by done.
  change (list_to_map []) with (∅ : gmap V Z).
  unfold mbind, outcome_bind. cbn [fst snd].
  destruct (length (isolated (x :: l))); cbn [generations_loop];
    rewrite decide_True by done; cbn [concat]; by rewrite app_nil_r.
Qed.

End no_edges.

(** C2, as stated, fails: with no dependency declared at all, and a hash
    order that follows the listing, the source returns the catalog in
    reverse listing order, whereas the lexical rule of the specification
    yields the kinds sorted by name. *)
Lemma lexical_tie_break_counterexample :
  get_states_by_dependency_order independent_env
    = Ok [ OtherClass 1; OtherClass 0; Filled; WaterSink; WaterSource;
           VerticalAdjacency; Under; Touching; ToggledOn; Temperature;
           Stained; Soaked; Slicer; Sliced; Pose; Open; OnTop; OnFloor;
           ObjectsInFOVOfRobot; NextTo; MaxTemperature; InsideRoomTypes;
           Inside; InSameRoomAsRobot; InReachOfRobot; InHandOfRobot;
           InFOVOfRobot; HorizontalAdjacency; HeatSourceOrSink; Frozen;
           Attached; Heated; Dusty; Cooked; ContactBodies; CleaningTool;
           Burnt; AABB ]
  ∧ compute_order_spec independent_env
    = Some [ AABB; Attached; Burnt; CleaningTool; ContactBodies; Cooked;
             Dusty; Filled; Frozen; HeatSourceOrSink; Heated;
             HorizontalAdjacency; InFOVOfRobot; InHandOfRobot;
             InReachOfRobot; InSameRoomAsRobot; Inside; InsideRoomTypes;
             OtherClass 0; OtherClass 1; MaxTemperature; NextTo;
             ObjectsInFOVOfRobot; OnFloor; OnTop; Open; Pose; Sliced;
             Slicer; Soaked; Stained; Temperature; ToggledOn; Touching;
             Under; VerticalAdjacency; WaterSink; WaterSource ]
  ∧ ¬ ∃ order,
        get_states_by_dependency_order independent_env = Ok order
        ∧ compute_order_spec independent_env = Some order.
Proof.
  split_and!.
  - vm_compute. reflexivity.
  - vm_compute. reflexivity.
  - intros (order & Hsrc & Hspec). vm_compute in Hsrc, Hspec. congruence.
Qed.

Lemma dependency_graph_independent E :
  (∀ s, s ∈ get_all_states E →
     get_dependencies E s = [] ∧ get_optional_dependencies E s = []) →
  get_state_dependency_graph E = isolated (iterate E (get_all_states E)).
Proof.
  intros Hnone. unfold get_state_dependency_graph.
  erewrite (list_fmap_ext _ (λ s, (s, []))).
  - apply from_dict_of_lists_isolated, NoDup_iterate.
  - intros i s Hs%list_elem_of_lookup_2%elem_of_iterate.
    destruct (Hnone s Hs) as [-> ->]. done.
Qed.

(** *** Categories *)

Lemma texture_priority_entry s r :
  get_texture_change_priority !! s = Some r ↔
  (s, r) ∈ [ (Frozen, 4); (Burnt, 3); (Cooked, 2); (Soaked, 1);
             (ToggledOn, 0) ].
Proof.
  unfold get_texture_change_priority, _TEXTURE_CHANGE_PRIORITY.
  symmetry. apply elem_of_list_to_map.
  apply (bool_decide_unpack _). vm_compute. exact I.
Qed.

Lemma texture_rank_entry s r :
  get_texture_change_priority !! s = Some r → texture_rank s = r.
Proof.
  intros Hs. unfold texture_rank. by rewrite lookup_total_alt, Hs.
Qed.

Lemma texture_priority_dom :
  dom get_texture_change_priority = get_texture_change_states.
Proof.
  unfold get_texture_change_priority, _TEXTURE_CHANGE_PRIORITY,
    get_texture_change_states, _TEXTURE_CHANGE_STATE_SET, frozenset.
  rewrite dom_list_to_map_L. cbn. set_solver.
Qed.

Lemma texture_priority_injective s1 s2 r :
  get_texture_change_priority !! s1 = Some r →
  get_texture_change_priority !! s2 = Some r →
  s1 = s2.
Proof.
  rewrite !texture_priority_entry. rewrite !elem_of_cons, !elem_of_nil.
  intros H1 H2. destruct_or!; simplify_eq; done.
Qed.

(** C9. The keys of the texture priority table are exactly the members of
    the texture-affecting set, and distinct states carry distinct ranks. *)
Theorem texture_priority_strict_order :
  dom get_texture_change_priority = get_texture_change_states
  ∧ ∀ s1 s2 r1 r2,
      get_texture_change_priority !! s1 = Some r1 →
      get_texture_change_priority !! s2 = Some r2 →
      s1 ≠ s2 → r1 ≠ r2.
Proof.
  split; [apply texture_priority_dom|].
  intros s1 s2 r1 r2 H1 H2 Hne ->. by eapply Hne, texture_priority_injective.
Qed.

Lemma texture_priority_strict_order_witness :
  Burnt ∈ dom get_texture_change_priority ∧ 3 ≠ 2.
Proof.
  destruct texture_priority_strict_order as [Hdom Hinj]. split.
  - rewrite Hdom. unfold get_texture_change_states,
      _TEXTURE_CHANGE_STATE_SET, frozenset. solve_listed.
  - apply (Hinj Burnt Cooked 3 2); [vm_compute; reflexivity..|discriminate].
Defined.

Lemma foldl_higher_rank (l : list PyClass) : ∀ best,
  best ≠ None ∨ l ≠ [] →
  ∃ w,
    foldl higher_rank best l = Some w
    ∧ (best = Some w ∨ w ∈ l)
    ∧ (∀ b, best = Some b → texture_rank b ≤ texture_rank w)
    ∧ (∀ s, s ∈ l → texture_rank s ≤ texture_rank w).
Proof.
  induction l as [|x l IH]; intros best Hne.
  - destruct best as [b|]; [|by destruct Hne].
    exists b. split_and!; [done|by left| |].
    + by intros ? [= ->].
    + intros s Hs. by apply elem_of_nil in Hs.
  - cbn [foldl].
    assert (∃ c, higher_rank best x = Some c
                 ∧ (best = Some c ∨ c = x)
                 ∧ (∀ b, best = Some b → texture_rank b ≤ texture_rank c)
                 ∧ texture_rank x ≤ texture_rank c) as (c & -> & Hc & Hb & Hx).
    { unfold higher_rank. destruct best as [b|].
      - case_decide.
        + exists x. split_and!; [done|by right| |lia]. intros ? [= <-]. lia.
        + exists b. split_and!; [done|by left| |lia]. by intros ? [= <-].
      - exists x. split_and!; [done|by right|done|lia]. }
    destruct (IH (Some c)) as (w & Hw & Hin & Hcw & Hl); [by left|].
    specialize (Hcw c eq_refl).
    exists w. split_and!; [done| | |].
    + destruct Hin as [[= <-]|Hin]; [|by right; right].
      destruct Hc as [->| ->]; [by left|right; left].
    + intros b Hbest. specialize (Hb b Hbest). lia.
    + intros s [->|Hs]%elem_of_cons; [lia|auto].
Qed.

(** C6. The priority table holds exactly the entries Frozen:4, Burnt:3,
    Cooked:2, Soaked:1, ToggledOn:0; for every non-empty set of
    texture-affecting states the winning state is a member of the set whose
    rank is strictly above that of every other member; the winner of
    {Burnt, Soaked} is Burnt and the winner of {Cooked, Soaked, ToggledOn}
    is Cooked. *)
Theorem texture_winner_highest_rank :
  (∀ s r,
     get_texture_change_priority !! s = Some r ↔
     (s, r) ∈ [ (Frozen, 4); (Burnt, 3); (Cooked, 2); (Soaked, 1);
                (ToggledOn, 0) ])
  ∧ (∀ active : gset PyClass,
       active ≠ ∅ →
       active ⊆ get_texture_change_states →
       ∃ w,
         winning_state active = Some w
         ∧ w ∈ active
         ∧ ∀ s, s ∈ active → s ≠ w → texture_rank s < texture_rank w)
  ∧ winning_state {[ Burnt; Soaked ]} = Some Burnt
  ∧ winning_state {[ Cooked; Soaked; ToggledOn ]} = Some Cooked.
Proof.
  split_and!.
  - apply texture_priority_entry.
  - intros active Hne Hsub. unfold winning_state.
    destruct (foldl_higher_rank (elements active) None)
      as (w & Hw & Hin & _ & Hmax).
    { right. intros Hnil. by apply elements_empty_inv, leibniz_equiv in Hnil. }
    destruct Hin as [?|Hin%elem_of_elements]; [done|].
    exists w. split_and!; [done..|].
    intros s Hs Hsw.
    assert (texture_rank s ≤ texture_rank w) as Hle
      by (by apply Hmax, elem_of_elements).
    assert (∀ x, x ∈ active →
              get_texture_change_priority !! x = Some (texture_rank x))
      as Hranked.
    { intros x Hx%Hsub. rewrite <-texture_priority_dom in Hx.
      apply elem_of_dom in Hx as [r Hr].
      by rewrite (texture_rank_entry _ _ Hr). }
    destruct (decide (texture_rank s = texture_rank w)) as [Heq|]; [|lia].
    destruct Hsw. eapply texture_priority_injective; [by apply Hranked|].
    rewrite Heq. by apply Hranked.
  - vm_compute. reflexivity.
  - vm_compute. reflexivity.
Qed.

Lemma texture_winner_highest_rank_witness :
  ∃ w,
    winning_state {[ Burnt; Soaked ]} = Some w
    ∧ w ∈ ({[ Burnt; Soaked ]} : gset PyClass)
    ∧ ∀ s, s ∈ ({[ Burnt; Soaked ]} : gset PyClass) → s ≠ w →
           texture_rank s < texture_rank w.
Proof.
  destruct texture_winner_highest_rank as (_ & Hwin & _).
  apply Hwin.
  - intros Hempty. apply (not_elem_of_empty (C := gset PyClass) Burnt).
    rewrite <-Hempty. apply elem_of_union_l, elem_of_singleton. done.
  - unfold get_texture_change_states, _TEXTURE_CHANGE_STATE_SET, frozenset.
    intros s [->%elem_of_singleton| ->%elem_of_singleton]%elem_of_union;
      solve_listed.
Defined.

(** C7. [get_fluid_source_states] returns exactly the members of
    [get_all_states] that are subclasses of [FluidSource], each once, hence
    a part of the catalog; it reads nothing but the catalog, so a second
    call returns the same list as the first. *)
Theorem fluid_source_states_filter (E : ClassEnv) :
  (∀ s, s ∈ get_fluid_source_states E ↔
        s ∈ get_all_states E ∧ issubclass E s FluidSource = true)
  ∧ (∀ s, s ∈ get_fluid_source_states E → s ∈ get_all_states E)
  ∧ NoDup (get_fluid_source_states E)
  ∧ (let first_call := get_fluid_source_states E in
     let second_call := get_fluid_source_states E in
     first_call = second_call).
Proof.
  assert (∀ s, s ∈ get_fluid_source_states E ↔
               s ∈ get_all_states E ∧ issubclass E s FluidSource = true)
    as Hiff.
  { intros s. unfold get_fluid_source_states, get_all_states.
    rewrite list_elem_of_filter, elem_of_iterate. tauto. }
  split_and!; [done| | |done].
  - intros s Hs. by apply Hiff in Hs as [? _].
  - apply NoDup_filter, NoDup_iterate.
Qed.

(** C8, as stated, fails: for a class that does not derive from
    [BaseObjectState] the factory raises [AssertionError], not an exception
    called InvalidStateClassError. *)
Lemma invalid_state_class_counterexample :
  issubclass sample_env (OtherClass 2) BaseObjectState = false
  ∧ get_object_state_instance sample_env sample_call (OtherClass 2)
      "apple" None
    = Raise (AssertionError "unknown state class: <class 'object'>")
  ∧ ¬ ∃ e,
        get_object_state_instance sample_env sample_call (OtherClass 2)
          "apple" None = Raise e
        ∧ exn_name e = "InvalidStateClassError".
Proof.
  split_and!; [vm_compute; reflexivity..|].
  intros (e & Hrun & Hname). vm_compute in Hrun.
  injection Hrun as <-. discriminate.
Qed.

(** C8, amended. For every [state_class] that is not a subclass of
    [BaseObjectState], [get_object_state_instance] raises [AssertionError]
    with the message "unknown state class: " followed by the class; for
    every subclass it returns what the constructor call
    [state_class(obj, **params)] returns, with the empty dict for omitted
    parameters. *)
Theorem get_object_state_instance_outcome {Obj Val Inst : Type}
    (E : ClassEnv) (call : PyClass → Obj → gmap string Val → outcome Inst)
    (state_class : PyClass) (obj : Obj) (params : option (gmap string Val)) :
  (issubclass E state_class BaseObjectState = false →
   get_object_state_instance E call state_class obj params
     = Raise (AssertionError
                ("unknown state class: " ++ __str__ E state_class)%string))
  ∧ (issubclass E state_class BaseObjectState = true →
     get_object_state_instance E call state_class obj params
       = call state_class obj (default ∅ params)).
Proof.
  unfold get_object_state_instance. split; intros ->; done.
Qed.

Lemma get_object_state_instance_outcome_witness :
  get_object_state_instance sample_env sample_call (OtherClass 2) "apple" None
    = Raise (AssertionError "unknown state class: <class 'object'>")
  ∧ get_object_state_instance sample_env sample_call Cooked "apple"
      (Some {[ "cook_temperature" := 70 ]})
    = Ok {| inst_class := Cooked; inst_obj := "apple";
            inst_kwargs := {[ "cook_temperature" := 70 ]} |}.
Proof.
  destruct (get_object_state_instance_outcome sample_env sample_call
              (OtherClass 2) "apple" None) as [Hraise _].
  destruct (get_object_state_instance_outcome sample_env sample_call
              Cooked "apple" (Some {[ "cook_temperature" := 70 ]}))
    as [_ Hcall].
  split.
  - apply Hraise. vm_compute. reflexivity.
  - rewrite Hcall; [reflexivity|]. vm_compute. reflexivity.
Defined.

(** * Further properties of the module *)

(** ** More on the graph and the sort *)

Lemma filter_ext_elem {A} (P Q : A → Prop) `{∀ x, Decision (P x)}
    `{∀ x, Decision (Q x)} (l : list A) :
  (∀ x, x ∈ l → P x ↔ Q x) → filter P l = filter Q l.
Proof.
  induction l as [|x l IH]; intros HPQ; [done|].
  assert (P x ↔ Q x) as Hx by (apply HPQ; left).
  assert (filter P l = filter Q l) as IH'.
  { apply IH. intros y Hy. apply HPQ. by right. }
  rewrite !filter_cons. repeat case_decide; try tauto; by rewrite IH'.
Qed.

Section more_graph_facts.
Context {V : Type} `{Countable V}.
Implicit Types (G : DiGraph V) (u v n x : V) (d : list (V * list V)).

Lemma nodes_link G u v : nodes (link u v <$> G) = nodes G.
Proof.
  unfold nodes. rewrite <-list_fmap_compose.
  apply list_fmap_ext. intros ? e _. apply link_fst.
Qed.

Lemma nodes_add_node_app G n :
  nodes (add_node G n) = nodes G ++ if decide (n ∈ nodes G) then [] else [n].
Proof.
  unfold add_node. case_decide; [by rewrite app_nil_r|].
  unfold nodes. by rewrite fmap_app.
Qed.

Lemma nodes_add_edges_from_app es : ∀ G,
  ∃ extra, nodes (add_edges_from G es) = nodes G ++ extra.
Proof.
  induction es as [|e es IH]; intros G.
  - exists []. by rewrite app_nil_r.
  - rewrite add_edges_from_cons.
    destruct (IH (add_edge G e.1 e.2)) as [extra ->].
    rewrite add_edge_unfold, nodes_link, !nodes_add_node_app, <-!app_assoc.
    by eexists.
Qed.

Lemma nodes_add_edges_from_iff es : ∀ G x,
  x ∈ nodes (add_edges_from G es) ↔
  x ∈ nodes G ∨ ∃ e, e ∈ es ∧ (x = e.1 ∨ x = e.2).
Proof.
  induction es as [|e es IH]; intros G x.
  - split; [by left|]. intros [?|(e & He & _)]; [done|].
    by apply elem_of_nil in He.
  - rewrite add_edges_from_cons, IH, nodes_add_edge. split.
    + intros [[?|[->| ->]]|(e' & He' & Hx)].
      * by left.
      * right. exists e. split; [left|by left].
      * right. exists e. split; [left|by right].
      * right. exists e'. split; [by right|done].
    + intros [?|(e' & [->|He']%elem_of_cons & Hx)].
      * by left; left.
      * left. right. done.
      * right. eauto.
Qed.

Lemma nodes_from_dict_of_lists_iff d x :
  x ∈ nodes (from_dict_of_lists d) ↔
  x ∈ d.*1 ∨ ∃ u nbrs, (u, nbrs) ∈ d ∧ x ∈ nbrs.
Proof.
  unfold from_dict_of_lists.
  rewrite nodes_add_edges_from_iff, nodes_add_nodes_from. split.
  - intros [[Hx|?]|(e & He & Hx)]; [by apply elem_of_nil in Hx|by left|].
    apply list_elem_of_bind in He as ([u nbrs] & He & Hin).
    apply list_elem_of_fmap in He as (nbr & -> & Hnbr). cbn in *.
    destruct Hx as [->| ->].
    + left. apply list_elem_of_fmap. by exists (u, nbrs).
    + right. eauto.
  - intros [?|(u & nbrs & Hin & Hx)]; [by left; right|].
    right. exists (u, x). split; [|by right].
    apply list_elem_of_bind. exists (u, nbrs). split; [|done].
    apply list_elem_of_fmap. eauto.
Qed.

(** The keys of the dict come first among the nodes, in the order of the
    dict. *)
Lemma nodes_from_dict_of_lists_app d :
  NoDup d.*1 → ∃ extra, nodes (from_dict_of_lists d) = d.*1 ++ extra.
Proof.
  intros Hnd. unfold from_dict_of_lists.
  destruct (nodes_add_edges_from_app
              (e ← d; (λ nbr, (e.1, nbr)) <$> e.2)
              (add_nodes_from [] d.*1)) as [extra ->].
  exists extra. f_equal.
  rewrite add_nodes_from_fresh; [apply nodes_isolated|done|].
  intros x _ Hx. by apply elem_of_nil in Hx.
Qed.

Variable G : DiGraph V.
Hypothesis Hwf : wf_graph G.

Lemma topological_sort_ok_inv order :
  topological_sort G = Ok order →
  order ≡ₚ nodes G ∧ ∀ u v, has_edge G u v → before order u v.
Proof using Hwf.
  intros Hsort.
  destruct (topological_sort_spec G Hwf)
    as [(order' & Hsort' & Hperm & Hord)|[Hraise _]]; [|congruence].
  rewrite Hsort in Hsort'. by injection Hsort' as <-.
Qed.

Lemma topological_sort_ok_or_unfeasible :
  (∃ order, topological_sort G = Ok order ∧ acyclic (has_edge G))
  ∨ (topological_sort G = Raise unfeasible ∧ ¬ acyclic (has_edge G)).
Proof using Hwf.
  destruct (topological_sort_spec G Hwf)
    as [(order & Hsort & Hperm & Hord)|(Hraise & R & Hne & HR)].
  - left. exists order. split; [done|].
    apply (before_acyclic _ order); [|done]. rewrite Hperm. apply Hwf.
  - right. split; [done|]. intros Hacyc.
    by destruct (acyclic_not_stuck (has_edge G) R).
Qed.

Lemma in_degree_pos v :
  0 < in_degree G v ↔ ∃ u, has_edge G u v.
Proof using Hwf.
  rewrite in_degree_deg by done. split.
  - intros Hpos. destruct (preds_in_short G Hwf [] v) as (u & _ & Hv & _).
    { unfold preds_in at 1. cbn. fold (deg G v). lia. }
    exists u. by apply has_edge_neighbors.
  - intros (u & Huv).
    assert (u ∈ filter (λ u, v ∈ neighbors G u) (nodes G)) as Hin.
    { apply list_elem_of_filter. split; [by apply has_edge_neighbors|].
      by apply (has_edge_nodes G u v). }
    unfold deg, preds_in.
    destruct (filter _ (nodes G)); [by apply elem_of_nil in Hin|cbn; lia].
Qed.

(** The first generation consists of the nodes without predecessor, in the
    order of the nodes, and the sort starts with it. *)
Lemma topological_sort_first_generation order :
  topological_sort G = Ok order →
  ∃ rest, order = filter (λ v, in_degree G v = 0) (nodes G) ++ rest.
Proof.
  unfold topological_sort, topological_generations.
  assert ((filter (λ vd : V * Z, vd.2 = 0)
             ((λ v, (v, in_degree G v)) <$> nodes G)).*1
          = filter (λ v, in_degree G v = 0) (nodes G)) as ->.
  { induction (nodes G) as [|x l IH]; [done|].
    rewrite fmap_cons, !filter_cons. cbn [snd].
    case_decide; cbn; by rewrite IH. }
  generalize (list_to_map (M := gmap V Z)
                (filter (λ vd : V * Z, 0 < vd.2)
                   ((λ v, (v, in_degree G v)) <$> nodes G))).
  intros m. destruct (filter _ (nodes G)) as [|z zero].
  - cbn. case_decide; [|done]. intros [= <-]. by exists [].
  - cbn [generations_loop].
    destruct (for_each (visit G) (z :: zero) (m, [])) as [st| |]; [|done..].
    cbn [mbind outcome_bind].
    destruct (generations_loop _ G st.1 st.2) as [gens| |]; [|done..].
    cbn. intros [= <-]. by eexists.
Qed.

End more_graph_facts.

(** ** More on the dependency order *)

Lemma dependency_graph_keys E :
  ((λ state,
      (state, get_dependencies E state ++ get_optional_dependencies E state))
     <$> iterate E (get_all_states E)).*1
  = iterate E (get_all_states E).
Proof. rewrite <-list_fmap_compose. apply list_fmap_id. Qed.

Lemma nodes_dependency_graph E x :
  x ∈ nodes (get_state_dependency_graph E) ↔
  x ∈ get_all_states E ∨ ∃ k, depends_on E k x.
Proof.
  unfold get_state_dependency_graph.
  rewrite nodes_from_dict_of_lists_iff, dependency_graph_keys, elem_of_iterate.
  split.
  - intros [?|(u & nbrs & (s & Heq & Hs)%list_elem_of_fmap & Hx)]; [by left|].
    simplify_eq. right. exists s. split; [by apply elem_of_iterate in Hs|done].
  - intros [?|(k & Hk & Hx)]; [by left|]. right. eexists k, _.
    split; [|exact Hx]. apply list_elem_of_fmap. exists k.
    split; [done|]. by apply elem_of_iterate.
Qed.

Lemma dependency_order_ok_inv E order :
  get_states_by_dependency_order E = Ok order →
  ∃ forward,
    topological_sort (get_state_dependency_graph E) = Ok forward
    ∧ order = reverse forward.
Proof.
  unfold get_states_by_dependency_order.
  destruct (topological_sort _) as [forward| |]; [|done..].
  cbn. intros [= <-]. by exists forward.
Qed.

Lemma dependency_order_elem E order x :
  get_states_by_dependency_order E = Ok order →
  x ∈ order ↔ x ∈ get_all_states E ∨ ∃ k, depends_on E k x.
Proof.
  intros (forward & Hsort & ->)%dependency_order_ok_inv.
  apply topological_sort_ok_inv in Hsort as [Hperm _];
    [|apply wf_from_dict_of_lists].
  by rewrite reverse_Permutation, Hperm, nodes_dependency_graph.
Qed.

(** X1. [get_states_by_dependency_order] either returns an order, and then
    the dependency relation has no cycle, or raises [NetworkXUnfeasible],
    and then the relation has a cycle; it never ends in any other way. *)
Theorem dependency_order_returns_iff_acyclic (E : ClassEnv) :
  (∃ order,
     get_states_by_dependency_order E = Ok order ∧ acyclic (depends_on E))
  ∨ (get_states_by_dependency_order E
       = Raise (NetworkXUnfeasible
                  "Graph contains a cycle or graph changed during iteration")
     ∧ ¬ acyclic (depends_on E)).
Proof.
  unfold get_states_by_dependency_order.
  destruct (topological_sort_ok_or_unfeasible (get_state_dependency_graph E))
    as [(order & -> & Hacyc)|[-> Hcyc]].
  { apply wf_from_dict_of_lists. }
  - left. exists (reverse order). split; [done|].
    by apply acyclic_dependency_graph.
  - right. split; [done|]. intros Hacyc.
    by apply Hcyc, acyclic_dependency_graph.
Qed.

(** X2. An order returned by [get_states_by_dependency_order] lists, each
    exactly once, the catalog members and the classes that some catalog
    member declares as a dependency, also those outside the catalog, and
    nothing else. *)
Theorem dependency_order_members (E : ClassEnv) (order : list PyClass) :
  get_states_by_dependency_order E = Ok order →
  NoDup order
  ∧ ∀ x, x ∈ order ↔ x ∈ get_all_states E ∨ ∃ k, depends_on E k x.
Proof.
  intros Hrun. split; [|intros x; by apply dependency_order_elem].
  apply dependency_order_ok_inv in Hrun as (forward & Hsort & ->).
  apply topological_sort_ok_inv in Hsort as [Hperm _];
    [|apply wf_from_dict_of_lists].
  rewrite reverse_Permutation, Hperm. apply wf_from_dict_of_lists.
Qed.

Lemma dependency_order_members_witness :
  ∃ order,
    get_states_by_dependency_order sample_env = Ok order
    ∧ NoDup order
    ∧ ∀ x, x ∈ order ↔
           x ∈ get_all_states sample_env ∨ ∃ k, depends_on sample_env k x.
Proof.
  eexists. split; [vm_compute; reflexivity|].
  apply (dependency_order_members sample_env). vm_compute. reflexivity.
Defined.

(** X3. In an order returned by [get_states_by_dependency_order], whatever
    a catalog member depends on through a chain of required or optional
    dependencies stands before it. *)
Theorem dependency_order_transitive (E : ClassEnv) (order : list PyClass)
    (k d : PyClass) :
  get_states_by_dependency_order E = Ok order →
  tc (depends_on E) k d →
  before order d k.
Proof.
  intros (forward & Hsort & ->)%dependency_order_ok_inv Hkd.
  apply topological_sort_ok_inv in Hsort as [Hperm Hord];
    [|apply wf_from_dict_of_lists].
  assert (NoDup forward) as Hnd.
  { rewrite Hperm. apply wf_from_dict_of_lists. }
  apply before_reverse.
  induction Hkd as [k d Hkd|k m d Hkm _ IH].
  - by apply Hord, has_edge_dependency_graph.
  - eapply before_trans; [done| |exact IH].
    by apply Hord, has_edge_dependency_graph.
Qed.

Lemma dependency_order_transitive_witness :
  ∃ order,
    get_states_by_dependency_order sample_env = Ok order
    ∧ before order Temperature Cooked.
Proof.
  eexists. split; [vm_compute; reflexivity|].
  apply (dependency_order_transitive sample_env _ Cooked Temperature).
  - vm_compute. reflexivity.
  - apply (tc_l _ _ MaxTemperature); [|apply tc_once].
    + split; [unfold get_all_states, _ALL_STATES, frozenset|cbn];
        solve_listed.
    + split; [unfold get_all_states, _ALL_STATES, frozenset|cbn];
        solve_listed.
Defined.

(** X4. In the graph built by [get_state_dependency_graph] the successors
    of a node are exactly the dependencies it declares as a catalog
    member, each listed once even when declared twice; no node occurs
    twice. *)
Theorem dependency_graph_exact (E : ClassEnv) :
  NoDup (nodes (get_state_dependency_graph E))
  ∧ ∀ k,
      NoDup (neighbors (get_state_dependency_graph E) k)
      ∧ ∀ d, d ∈ neighbors (get_state_dependency_graph E) k ↔
             k ∈ get_all_states E
             ∧ d ∈ get_dependencies E k ++ get_optional_dependencies E k.
Proof.
  pose proof (wf_from_dict_of_lists
                ((λ state,
                    (state, get_dependencies E state
                              ++ get_optional_dependencies E state))
                   <$> iterate E (get_all_states E))) as Hwf.
  fold (get_state_dependency_graph E) in Hwf.
  split; [apply Hwf|]. intros k. split; [by apply NoDup_neighbors|].
  intros d. by rewrite <-has_edge_neighbors, has_edge_dependency_graph.
Qed.

(** X5. In the graph built by [get_state_dependency_graph] the in-degree
    of a class is the number of catalog members that declare it as a
    required or optional dependency. *)
Theorem dependency_graph_in_degree (E : ClassEnv) (d : PyClass) :
  in_degree (get_state_dependency_graph E) d
  = Z.of_nat
      (length
         (filter
            (λ k, d ∈ get_dependencies E k ++ get_optional_dependencies E k)
            (iterate E (get_all_states E)))).
Proof.
  pose proof (wf_from_dict_of_lists
                ((λ state,
                    (state, get_dependencies E state
                              ++ get_optional_dependencies E state))
                   <$> iterate E (get_all_states E))) as Hwf.
  fold (get_state_dependency_graph E) in Hwf.
  rewrite in_degree_deg by done. f_equal. unfold deg, preds_in.
  apply Permutation_length, NoDup_Permutation.
  - apply NoDup_filter, Hwf.
  - apply NoDup_filter, NoDup_iterate.
  - intros k. rewrite !list_elem_of_filter, elem_of_iterate.
    rewrite <-has_edge_neighbors by done. split.
    + intros [[? ?]%has_edge_dependency_graph _]. done.
    + intros [Hd Hk].
      assert (has_edge (get_state_dependency_graph E) k d) as Hedge
        by (by apply has_edge_dependency_graph).
      split; [done|]. by apply (has_edge_nodes _ k d).
Qed.

Lemma dependency_order_tail (E : ClassEnv) (order : list PyClass) :
  get_states_by_dependency_order E = Ok order →
  ∃ front,
    order
    = front
      ++ reverse
           (filter
              (λ s,
                 Forall
                   (λ k, s ∉ get_dependencies E k
                               ++ get_optional_dependencies E k)
                   (iterate E (get_all_states E)))
              (iterate E (get_all_states E))).
Proof.
  intros (forward & Hsort & ->)%dependency_order_ok_inv.
  apply topological_sort_first_generation in Hsort as [rest ->].
  exists (reverse rest). rewrite reverse_app. f_equal. f_equal.
  pose proof (wf_from_dict_of_lists
                ((λ state,
                    (state, get_dependencies E state
                              ++ get_optional_dependencies E state))
                   <$> iterate E (get_all_states E))) as Hwf.
  fold (get_state_dependency_graph E) in Hwf.
  assert (∀ x, in_degree (get_state_dependency_graph E) x = 0 ↔
               Forall
                 (λ k, x ∉ get_dependencies E k
                             ++ get_optional_dependencies E k)
                 (iterate E (get_all_states E))) as Hzero.
  { intros x. rewrite Forall_forall. split.
    - intros Hx k Hk%elem_of_iterate Hdep.
      assert (0 < in_degree (get_state_dependency_graph E) x); [|lia].
      apply in_degree_pos; [done|]. exists k.
      by apply has_edge_dependency_graph.
    - intros Hnone.
      destruct (decide (0 < in_degree (get_state_dependency_graph E) x))
        as [Hpos|Hnpos].
      + apply in_degree_pos in Hpos as (k & [Hk Hdep]%has_edge_dependency_graph);
          [|done].
        destruct (Hnone k); [by apply elem_of_iterate|done].
      + rewrite in_degree_deg in * by done. lia. }
  destruct (nodes_from_dict_of_lists_app
              ((λ state,
                  (state, get_dependencies E state
                            ++ get_optional_dependencies E state))
                 <$> iterate E (get_all_states E))) as [extra Hnodes].
  { rewrite dependency_graph_keys. apply NoDup_iterate. }
  fold (get_state_dependency_graph E) in Hnodes.
  rewrite dependency_graph_keys in Hnodes.
  rewrite Hnodes, filter_app.
  rewrite (filter_none _ extra), app_nil_r.
  - apply filter_ext_elem. intros x _. apply Hzero.
  - intros x Hx Hdeg.
    assert (NoDup (iterate E (get_all_states E) ++ extra)) as Hnd
      by (rewrite <-Hnodes; apply Hwf).
    apply NoDup_app in Hnd as (_ & Hdisj & _).
    assert (x ∈ nodes (get_state_dependency_graph E)) as Hnode.
    { rewrite Hnodes. apply elem_of_app. by right. }
    apply nodes_dependency_graph in Hnode as [Hcat|(k & Hk & Hdep)].
    + by apply (Hdisj x); [apply elem_of_iterate|].
    + apply Hzero in Hdeg. rewrite Forall_forall in Hdeg.
      by apply (Hdeg k); [apply elem_of_iterate|].
Qed.

(** X6. In an order returned by [get_states_by_dependency_order] the
    catalog members that no catalog member depends on come last, in
    reverse iteration order of the catalog. *)
Theorem dependency_order_ends_with_undepended (E : ClassEnv)
    (order : list PyClass) :
  get_states_by_dependency_order E = Ok order →
  ∃ front,
    order
    = front
      ++ reverse
           (filter
              (λ s,
                 Forall
                   (λ k, s ∉ get_dependencies E k
                               ++ get_optional_dependencies E k)
                   (iterate E (get_all_states E)))
              (iterate E (get_all_states E))).
Proof. apply dependency_order_tail. Qed.

Lemma dependency_order_ends_with_undepended_witness :
  ∃ order front,
    get_states_by_dependency_order sample_env = Ok order
    ∧ order
      = front
        ++ reverse
             (filter
                (λ s,
                   Forall
                     (λ k, s ∉ get_dependencies sample_env k
                                 ++ get_optional_dependencies sample_env k)
                     (iterate sample_env (get_all_states sample_env)))
                (iterate sample_env (get_all_states sample_env))).
Proof.
  eexists.
  destruct (dependency_order_ends_with_undepended sample_env
              [ Temperature; Open; ToggledOn; MaxTemperature; OtherClass 1;
                OtherClass 0; Filled; WaterSink; WaterSource;
                VerticalAdjacency; Under; Touching; Stained; Soaked; Slicer;
                Sliced; Pose; OnTop; OnFloor; ObjectsInFOVOfRobot; NextTo;
                InsideRoomTypes; Inside; InSameRoomAsRobot; InReachOfRobot;
                InHandOfRobot; InFOVOfRobot; HorizontalAdjacency;
                HeatSourceOrSink; Frozen; Attached; Heated; Dusty; Cooked;
                ContactBodies; CleaningTool; Burnt; AABB ])
    as [front Hfront]; [vm_compute; reflexivity|].
  exists front. split; [vm_compute; reflexivity|exact Hfront].
Defined.

(** ** More on the tables and the lookups *)

Lemma ability_entry E ability states :
  _ABILITY_TO_STATE_MAPPING E !! ability = Some states ↔
  (ability, states) ∈
    [ ("attachable", [Attached]);
      ("burnable", [Burnt]);
      ("cleaningTool", [CleaningTool]);
      ("coldSource", [HeatSourceOrSink]);
      ("cookable", [Cooked]);
      ("dustyable", [Dusty]);
      ("freezable", [Frozen]);
      ("heatable", [Heated]);
      ("heatSource", [HeatSourceOrSink]);
      ("openable", [Open]);
      ("robot", ROOM_STATES E ++ [ObjectsInFOVOfRobot]);
      ("sliceable", [Sliced]);
      ("slicer", [Slicer]);
      ("soakable", [Soaked]);
      ("stainable", [Stained]);
      ("toggleable", [ToggledOn]);
      ("waterSource", [WaterSource]);
      ("waterSink", [WaterSink]);
      ("fillable", [Filled]) ].
Proof.
  unfold _ABILITY_TO_STATE_MAPPING. symmetry. apply elem_of_list_to_map.
  cbn [fmap list_fmap fst]. apply (bool_decide_unpack _). vm_compute. exact I.
Qed.

Lemma elem_of_all_states E s :
  s ∈ get_all_states E ↔ s ∈ listed_states ∨ s ∈ ROOM_STATES E.
Proof.
  unfold get_all_states, _ALL_STATES, frozenset.
  by rewrite elem_of_list_to_set, elem_of_app.
Qed.

Lemma ability_states_in_catalog E ability states s :
  _ABILITY_TO_STATE_MAPPING E !! ability = Some states →
  s ∈ states → s ∈ get_all_states E.
Proof.
  rewrite ability_entry, elem_of_all_states. intros Hentry Hs.
  repeat (apply elem_of_cons in Hentry as [[= -> ->]|Hentry];
          [try (apply list_elem_of_singleton in Hs as ->; left;
                apply (bool_decide_unpack _); vm_compute; exact I)|]).
  - apply elem_of_app in Hs as [?| ->%list_elem_of_singleton]; [by right|].
    left. apply (bool_decide_unpack _). vm_compute. exact I.
  - by apply elem_of_nil in Hentry.
Qed.

Lemma ability_states_nonempty E ability states :
  _ABILITY_TO_STATE_MAPPING E !! ability = Some states → states ≠ [].
Proof.
  rewrite ability_entry. intros Hentry.
  repeat (apply elem_of_cons in Hentry as [[= -> ->]|Hentry]; [try done|]).
  - by destruct (ROOM_STATES E).
  - by apply elem_of_nil in Hentry.
Qed.

(** X7. Every state that [get_states_for_ability] returns belongs to the
    catalog [get_all_states], whatever the ability and whatever
    [ROOM_STATES] holds. *)
Theorem ability_states_registered (E : ClassEnv) (ability : string)
    (states : list PyClass) (s : PyClass) :
  get_states_for_ability E ability = Ok states →
  s ∈ states →
  s ∈ get_all_states E.
Proof.
  unfold get_states_for_ability.
  destruct (_ABILITY_TO_STATE_MAPPING E !! ability) as [l|] eqn:Hl.
  - intros [= <-]. by apply (ability_states_in_catalog E ability l).
  - intros [= <-] Hs. by apply elem_of_nil in Hs.
Qed.

Lemma ability_states_registered_witness :
  OtherClass 1 ∈ get_all_states sample_env.
Proof.
  apply (ability_states_registered sample_env "robot"
           [OtherClass 0; OtherClass 1; ObjectsInFOVOfRobot]).
  - vm_compute. reflexivity.
  - solve_listed.
Defined.

(** X8. [get_states_for_ability] never raises, and the list it returns is
    empty exactly when the ability is no key of
    [_ABILITY_TO_STATE_MAPPING]: a caller can tell an unknown ability by
    the empty result. *)
Theorem ability_states_empty_iff_unknown (E : ClassEnv) (ability : string) :
  ∃ states,
    get_states_for_ability E ability = Ok states
    ∧ (states = [] ↔ _ABILITY_TO_STATE_MAPPING E !! ability = None).
Proof.
  unfold get_states_for_ability.
  destruct (_ABILITY_TO_STATE_MAPPING E !! ability) as [l|] eqn:Hl.
  - exists l. split; [done|]. split; [|done].
    intros ->. by destruct (ability_states_nonempty E ability []).
  - by exists [].
Qed.

(** X9. The category sets never name a state outside the catalog: the
    default, fire, steam and texture-change states are all members of
    [get_all_states], whatever [ROOM_STATES] holds. *)
Theorem category_states_registered (E : ClassEnv) :
  get_default_states ⊆ get_all_states E
  ∧ get_fire_states ⊆ get_all_states E
  ∧ get_steam_states ⊆ get_all_states E
  ∧ get_texture_change_states ⊆ get_all_states E.
Proof.
  assert (∀ l : list PyClass,
            Forall (λ s, s ∈ listed_states) l →
            frozenset l ⊆ get_all_states E) as Hsub.
  { intros l Hl s Hs%elem_of_list_to_set. rewrite Forall_forall in Hl.
    apply elem_of_all_states. left. auto. }
  split_and!; apply Hsub, (bool_decide_unpack _); vm_compute; exact I.
Qed.

(** X10. Whatever names the catalog members carry, a state returned by
    [get_state_from_name] is a catalog member with the requested name; the
    lookup returns a state as soon as some member has the name, and
    otherwise raises [StopIteration] and nothing else. *)
Theorem get_state_from_name_sound (E : ClassEnv) (name : string) :
  (∀ s, get_state_from_name E name = Ok s →
        s ∈ get_all_states E ∧ get_state_name E s = name)
  ∧ ((∃ s, s ∈ get_all_states E ∧ get_state_name E s = name) →
     ∃ s, get_state_from_name E name = Ok s)
  ∧ ((∀ s, s ∈ get_all_states E → get_state_name E s ≠ name) ↔
     get_state_from_name E name = Raise StopIteration).
Proof.
  unfold get_state_from_name.
  destruct (list_find _ _) as [[i s']|] eqn:Hfind.
  - apply list_find_Some in Hfind as (Hi & Hname & _).
    apply list_elem_of_lookup_2, elem_of_iterate in Hi.
    split_and!.
    + by intros s [= <-].
    + intros _. by exists s'.
    + split; [|done]. intros Hnone. by destruct (Hnone s' Hi).
  - apply list_find_None in Hfind. rewrite Forall_forall in Hfind.
    split_and!.
    + by intros s [=].
    + intros (s & Hs & Hname). by destruct (Hfind s); [apply elem_of_iterate|].
    + split; [done|]. intros _ s Hs. by apply Hfind, elem_of_iterate.
Qed.

Lemma get_state_from_name_sound_witness :
  Cooked ∈ get_all_states anonymous_env
  ∧ get_state_name anonymous_env AABB = "state"
  ∧ ∃ s, get_state_from_name anonymous_env "state" = Ok s.
Proof.
  destruct (get_state_from_name_sound anonymous_env "state")
    as (Hsound & Hfound & _).
  destruct (Hsound AABB) as [_ Hname]; [vm_compute; reflexivity|].
  split_and!.
  - unfold get_all_states, _ALL_STATES, frozenset. solve_listed.
  - exact Hname.
  - apply Hfound. exists Cooked. split; [|reflexivity].
    unfold get_all_states, _ALL_STATES, frozenset. solve_listed.
Defined.

(** X11. Every state that an entity can be given has a place in an order
    returned by [get_states_by_dependency_order]: the states of every
    ability, the default states, the texture-change states and the fluid
    source states all occur in it. *)
Theorem granted_states_scheduled (E : ClassEnv) (order : list PyClass) :
  get_states_by_dependency_order E = Ok order →
  (∀ ability states s,
     get_states_for_ability E ability = Ok states → s ∈ states → s ∈ order)
  ∧ (∀ s, s ∈ get_default_states → s ∈ order)
  ∧ (∀ s, s ∈ get_texture_change_states → s ∈ order)
  ∧ (∀ s, s ∈ get_fluid_source_states E → s ∈ order).
Proof.
  intros Hrun.
  assert (∀ s, s ∈ get_all_states E → s ∈ order) as Hcat.
  { intros s Hs. apply (dependency_order_elem E order s Hrun). by left. }
  assert (∀ l : list PyClass,
            Forall (λ s, s ∈ listed_states) l →
            ∀ s, s ∈ frozenset l → s ∈ order) as Hsub.
  { intros l Hl s Hs%elem_of_list_to_set. rewrite Forall_forall in Hl.
    apply Hcat, elem_of_all_states. left. auto. }
  split_and!.
  - intros ability states s Hstates Hs. apply Hcat.
    unfold get_states_for_ability in Hstates.
    destruct (_ABILITY_TO_STATE_MAPPING E !! ability) as [l|] eqn:Hl.
    + injection Hstates as <-. by eapply ability_states_in_catalog.
    + injection Hstates as <-. by apply elem_of_nil in Hs.
  - apply Hsub, (bool_decide_unpack _). vm_compute. exact I.
  - apply Hsub, (bool_decide_unpack _). vm_compute. exact I.
  - intros s [_ Hs%elem_of_iterate]%list_elem_of_filter. by apply Hcat.
Qed.

Lemma granted_states_scheduled_witness :
  ∃ order,
    get_states_by_dependency_order sample_env = Ok order
    ∧ Cooked ∈ order ∧ WaterSource ∈ order.
Proof.
  eexists. split; [vm_compute; reflexivity|].
  destruct (granted_states_scheduled sample_env
              [ Temperature; Open; ToggledOn; MaxTemperature; OtherClass 1;
                OtherClass 0; Filled; WaterSink; WaterSource;
                VerticalAdjacency; Under; Touching; Stained; Soaked; Slicer;
                Sliced; Pose; OnTop; OnFloor; ObjectsInFOVOfRobot; NextTo;
                InsideRoomTypes; Inside; InSameRoomAsRobot; InReachOfRobot;
                InHandOfRobot; InFOVOfRobot; HorizontalAdjacency;
                HeatSourceOrSink; Frozen; Attached; Heated; Dusty; Cooked;
                ContactBodies; CleaningTool; Burnt; AABB ])
    as (Hability & _ & _ & Hfluid); [vm_compute; reflexivity|].
  split.
  - apply (Hability "cookable" [Cooked]); [vm_compute; reflexivity|].
    solve_listed.
  - apply Hfluid. solve_listed.
Defined.

(** ** The claims on the tie-break and on the name lookup *)

(** C2, amended. [get_states_by_dependency_order] runs Kahn's algorithm
    through networkx's topological sort and reverses the result; the
    zero-in-degree nodes are taken in the insertion order of the graph,
    that is the iteration order of the [_ALL_STATES] frozenset, not by
    name.  Consequently two builds on environments with the same catalog,
    iterated in the same order, and the same dependencies return the same
    outcome, whatever the names; the catalog members that no member
    depends on end a returned order, in reverse iteration order; and when
    no catalog member declares a dependency the outcome is the whole
    catalog in reverse iteration order. *)
Theorem dependency_order_deterministic (E E' : ClassEnv) :
  (iterate E (get_all_states E) = iterate E' (get_all_states E') →
   (∀ s, s ∈ get_all_states E →
      get_dependencies E s = get_dependencies E' s
      ∧ get_optional_dependencies E s = get_optional_dependencies E' s) →
   get_states_by_dependency_order E = get_states_by_dependency_order E')
  ∧ (∀ order,
       get_states_by_dependency_order E = Ok order →
       ∃ front,
         order
         = front
           ++ reverse
                (filter
                   (λ s,
                      Forall
                        (λ k, s ∉ get_dependencies E k
                                    ++ get_optional_dependencies E k)
                        (iterate E (get_all_states E)))
                   (iterate E (get_all_states E))))
  ∧ ((∀ s, s ∈ get_all_states E →
        get_dependencies E s = [] ∧ get_optional_dependencies E s = []) →
     get_states_by_dependency_order E
       = Ok (reverse (iterate E (get_all_states E)))).
Proof.
  split_and!.
  - intros Hiter Hdeps.
    unfold get_states_by_dependency_order, get_state_dependency_graph.
    rewrite <-Hiter. do 3 f_equal. apply list_fmap_ext.
    intros i s Hs%list_elem_of_lookup_2%elem_of_iterate.
    by destruct (Hdeps s Hs) as [-> ->].
  - apply dependency_order_tail.
  - intros Hnone. unfold get_states_by_dependency_order.
    rewrite dependency_graph_independent by done.
    by rewrite topological_sort_isolated.
Qed.

Lemma dependency_order_deterministic_witness :
  get_states_by_dependency_order independent_env
    = get_states_by_dependency_order anonymous_env
  ∧ (∃ order front,
       get_states_by_dependency_order sample_env = Ok order
       ∧ order
         = front
           ++ reverse
                (filter
                   (λ s,
                      Forall
                        (λ k, s ∉ get_dependencies sample_env k
                                    ++ get_optional_dependencies sample_env k)
                        (iterate sample_env (get_all_states sample_env)))
                   (iterate sample_env (get_all_states sample_env))))
  ∧ get_states_by_dependency_order independent_env
    = Ok (reverse (iterate independent_env (get_all_states independent_env))).
Proof.
  destruct (dependency_order_deterministic independent_env anonymous_env)
    as (Hsame & _ & Hrev).
  destruct (dependency_order_deterministic sample_env sample_env)
    as (_ & Htail & _).
  split_and!.
  - apply Hsame; [reflexivity|]. intros s _. split; reflexivity.
  - eexists.
    destruct (Htail
                [ Temperature; Open; ToggledOn; MaxTemperature; OtherClass 1;
                  OtherClass 0; Filled; WaterSink; WaterSource;
                  VerticalAdjacency; Under; Touching; Stained; Soaked;
                  Slicer; Sliced; Pose; OnTop; OnFloor; ObjectsInFOVOfRobot;
                  NextTo; InsideRoomTypes; Inside; InSameRoomAsRobot;
                  InReachOfRobot; InHandOfRobot; InFOVOfRobot;
                  HorizontalAdjacency; HeatSourceOrSink; Frozen; Attached;
                  Heated; Dusty; Cooked; ContactBodies; CleaningTool; Burnt;
                  AABB ])
      as [front Hfront]; [vm_compute; reflexivity|].
    exists front. split; [vm_compute; reflexivity|exact Hfront].
  - apply Hrev. intros s _. split; reflexivity.
Defined.

(** C10, as stated, fails: nothing in the module makes the names unique
    keys over the catalog.  When the two room classes carry the same name,
    looking up the name of the second returns the first. *)
Lemma shared_name_counterexample :
  OtherClass 1 ∈ get_all_states room_template_env
  ∧ get_state_name room_template_env (OtherClass 1) = "IsInRoom"
  ∧ get_state_from_name room_template_env "IsInRoom" = Ok (OtherClass 0)
  ∧ ¬ ∀ s, s ∈ get_all_states room_template_env →
           get_state_from_name room_template_env
             (get_state_name room_template_env s) = Ok s.
Proof.
  assert (OtherClass 1 ∈ get_all_states room_template_env) as Hin.
  { unfold get_all_states, _ALL_STATES, frozenset. solve_listed. }
  split_and!; [done|reflexivity|vm_compute; reflexivity|].
  intros Hclaim. specialize (Hclaim (OtherClass 1) Hin).
  vm_compute in Hclaim. discriminate.
Qed.

(** C10, amended. For every catalog member [s], looking up the name of [s]
    returns a catalog member that carries this name, the first one in the
    iteration order of the catalog; it is [s] itself when no other member
    carries the name.  The round trip returns [s] for every catalog member
    exactly when names are unique keys over the catalog.  Looking up a
    name that no catalog member carries returns no state: the generator is
    exhausted and [next] raises [StopIteration]. *)
Theorem get_state_from_name_round_trip (E : ClassEnv) :
  (∀ s, s ∈ get_all_states E →
     ∃ s',
       get_state_from_name E (get_state_name E s) = Ok s'
       ∧ s' ∈ get_all_states E
       ∧ get_state_name E s' = get_state_name E s
       ∧ (∀ i s2,
            iterate E (get_all_states E) !! i = Some s2 →
            get_state_name E s2 = get_state_name E s →
            ∃ j, (j ≤ i)%nat ∧ iterate E (get_all_states E) !! j = Some s')
       ∧ ((∀ s2, s2 ∈ get_all_states E →
                 get_state_name E s2 = get_state_name E s → s2 = s) →
          s' = s))
  ∧ ((∀ s, s ∈ get_all_states E →
           get_state_from_name E (get_state_name E s) = Ok s)
     ↔ (∀ s1 s2, s1 ∈ get_all_states E → s2 ∈ get_all_states E →
                 get_state_name E s1 = get_state_name E s2 → s1 = s2))
  ∧ (∀ name, (∀ s, s ∈ get_all_states E → get_state_name E s ≠ name) →
             get_state_from_name E name = Raise StopIteration).
Proof.
  assert (∀ s, s ∈ get_all_states E →
     ∃ s',
       get_state_from_name E (get_state_name E s) = Ok s'
       ∧ s' ∈ get_all_states E
       ∧ get_state_name E s' = get_state_name E s
       ∧ (∀ i s2,
            iterate E (get_all_states E) !! i = Some s2 →
            get_state_name E s2 = get_state_name E s →
            ∃ j, (j ≤ i)%nat ∧ iterate E (get_all_states E) !! j = Some s'))
    as Hfirst.
  { intros s Hs. unfold get_state_from_name.
    destruct (list_find _ _) as [[i0 s']|] eqn:Hfind.
    - apply list_find_Some in Hfind as (Hi0 & Hname & Hmin).
      exists s'. split_and!; [done| |done|].
      + by apply list_elem_of_lookup_2, elem_of_iterate in Hi0.
      + intros i s2 Hi Hs2. exists i0. split; [|done].
        destruct (decide (i0 ≤ i)%nat) as [|Hlt]; [done|].
        destruct (Hmin i s2 Hi); [lia|done].
    - apply list_find_None in Hfind. rewrite Forall_forall in Hfind.
      destruct (Hfind s); [by apply elem_of_iterate|done]. }
  split_and!.
  - intros s Hs. destruct (Hfirst s Hs) as (s' & Hrun & Hs' & Hname & Hmin).
    exists s'. split_and!; [done..|]. intros Honly. by apply Honly.
  - split.
    + intros Hround s1 s2 Hs1 Hs2 Hname.
      pose proof (Hround s1 Hs1) as H1. pose proof (Hround s2 Hs2) as H2.
      rewrite Hname, H2 in H1. by injection H1.
    + intros Hunique s Hs.
      destruct (Hfirst s Hs) as (s' & Hrun & Hs' & Hname & _).
      rewrite Hrun. f_equal. by apply Hunique.
  - intros name Hfresh. unfold get_state_from_name.
    destruct (list_find _ _) as [[i s']|] eqn:Hfind; [|done].
    apply list_find_Some in Hfind as (Hi & Hname & _).
    apply list_elem_of_lookup_2, elem_of_iterate in Hi.
    by destruct (Hfresh s' Hi).
Qed.

Lemma sample_names_unique s1 s2 :
  s1 ∈ get_all_states sample_env → s2 ∈ get_all_states sample_env →
  get_state_name sample_env s1 = get_state_name sample_env s2 → s1 = s2.
Proof.
  intros H1%elem_of_elements H2%elem_of_elements.
  apply (NoDup_fmap_elem_inj (get_state_name sample_env)
           (elements (get_all_states sample_env))); [|done..].
  apply (bool_decide_unpack _). vm_compute. exact I.
Qed.

Lemma get_state_from_name_round_trip_witness :
  (∃ s',
     get_state_from_name room_template_env
       (get_state_name room_template_env (OtherClass 1)) = Ok s'
     ∧ get_state_name room_template_env s' = "IsInRoom")
  ∧ get_state_from_name sample_env (get_state_name sample_env Cooked)
    = Ok Cooked
  ∧ get_state_from_name sample_env "Flying" = Raise StopIteration.
Proof.
  destruct (get_state_from_name_round_trip room_template_env)
    as (Hfirst & _ & _).
  destruct (get_state_from_name_round_trip sample_env)
    as (_ & [_ Hround] & Hmissing).
  split_and!.
  - destruct (Hfirst (OtherClass 1)) as (s' & Hrun & _ & Hname & _).
    { unfold get_all_states, _ALL_STATES, frozenset. solve_listed. }
    exists s'. split; [exact Hrun|exact Hname].
  - apply (Hround sample_names_unique).
    unfold get_all_states, _ALL_STATES, frozenset. solve_listed.
  - apply Hmissing. intros s Hs%elem_of_elements.
    revert s Hs. apply Forall_forall, (bool_decide_unpack _).
    vm_compute. exact I.
Defined.
